(** * The request reactor of the KUSANAGI Go SDK component server

    A shallow embedding of [lib/client.go] (the IPC address helper) and of the
    component server (createErrorRespose, pipeOutput, getAddress,
    startMessageListener and the two reactor handlers of start), followed by
    the properties of the natural-language specification that were checked
    against it.

    Go values are modelled as follows.
    - [string] and [[]byte] are [string] (a sequence of 8-bit characters);
      a multipart message ([[][]byte]) is a [list string].
    - [error] is [option string]: [None] is the nil error, [Some m] an error
      whose [Error()] text is [m].
    - A channel is a record with its buffer, capacity and closed flag; the
      blocking behaviour of send and receive is the enabledness of the
      corresponding transition.
    - Goroutines are components of a state with a program counter; every
      interleaving is a path of the step relation. *)

From Stdlib Require Import List String Ascii Bool Arith ZArith Lia DecimalString.
Import ListNotations.
Open Scope string_scope.

Set Implicit Arguments.

(** ** Text helpers: what fmt.Sprintf produces for the verbs the server uses *)

Module Fmt.

(** The double-quote character of the [%s]-in-quotes formats. *)
Definition dquote : string := String (ascii_of_nat 34) EmptyString.

(** [%d] of a Go integer. *)
Definition dec (z : Z) : string := NilZero.string_of_int (Z.to_int z).

(** int64 wrap-around, as Go's arithmetic on [time.Duration] has it. *)
Definition wrap64 (z : Z) : Z :=
  ((z + 2 ^ 63) mod 2 ^ 64) - 2 ^ 63.

(** [s] occurs in [t]. *)
Definition mentions (t s : string) : Prop :=
  exists pre post, t = pre ++ s ++ post.

End Fmt.

(** ** lib/client.go *)

Module Lib.

(** The character class [a-zA-Z0-9] of [ipcRegexp].  The regexp works on
    runes, the model on bytes: a byte of an alphanumeric rune is an ASCII
    letter or digit, and every other rune, valid or not, is made of bytes
    outside the class and matches the negated class as a whole, so runs of
    matching runes and runs of matching bytes coincide. *)
Definition isAlnum (c : ascii) : bool :=
  let n := nat_of_ascii c in
  (((97 <=? n) && (n <=? 122)) || ((65 <=? n) && (n <=? 90))
   || ((48 <=? n) && (n <=? 57)))%nat.

(** Length of the match of [[^a-zA-Z0-9]{1,}] anchored at the start of [s]:
    the repetition is greedy, so the match is the longest prefix of
    characters outside the class; length 0 means no match here. *)
Fixpoint matchLen (s : string) : nat :=
  match s with
  | EmptyString => 0
  | String c s' => if isAlnum c then 0 else S (matchLen s')
  end.

(** [ipcRegexp.ReplaceAllString(s, "-")]: successive leftmost matches are
    replaced, the text between them is copied.  [skip] counts the
    characters of the current match that are still to be passed over. *)
Fixpoint replaceFrom (skip : nat) (s : string) : string :=
  match s with
  | EmptyString => EmptyString
  | String c s' =>
      match skip with
      | S k => replaceFrom k s'
      | O =>
          match matchLen s with
          | O => String c (replaceFrom 0 s')
          | S k => "-" ++ replaceFrom k s'
          end
      end
  end.

Definition ReplaceAllString (s : string) : string := replaceFrom 0 s.

(** [strings.Join(args, "-")]. *)
Definition Join (args : list string) : string := String.concat "-" args.

(** [func IPC(args ...string) string]. *)
Definition IPC (args : list string) : string :=
  "ipc://@kusanagi-" ++ ReplaceAllString (Join args).

(** *** The wording of the specification, for comparison

    "replacing every run of non-alphanumeric characters with a single
    separator": the string is cut into its maximal runs of characters of
    one kind, and each run of the non-alphanumeric kind becomes one "-". *)
Fixpoint runs (s : string) : list (bool * string) :=
  match s with
  | EmptyString => []
  | String c s' =>
      match runs s' with
      | (b, t) :: rest =>
          if Bool.eqb b (isAlnum c)
          then (b, String c t) :: rest
          else (isAlnum c, String c EmptyString) :: (b, t) :: rest
      | [] => [(isAlnum c, String c EmptyString)]
      end
  end.

Definition unrun (r : bool * string) : string := snd r.

Definition collapseRun (r : bool * string) : string :=
  if fst r then snd r else "-".

Definition flatten (l : list string) : string := String.concat "" l.

Definition collapseRuns (s : string) : string :=
  flatten (map collapseRun (runs s)).

(** Every character of [s] is of kind [b]. *)
Fixpoint allKind (b : bool) (s : string) : bool :=
  match s with
  | EmptyString => true
  | String c s' => Bool.eqb (isAlnum c) b && allKind b s'
  end.

(** Neighbouring runs are of different kinds: no run can be extended. *)
Fixpoint alternating (l : list (bool * string)) : Prop :=
  match l with
  | r1 :: ((r2 :: _) as tl) => fst r1 <> fst r2 /\ alternating tl
  | _ => True
  end.

Definition wellFormedRun (r : bool * string) : Prop :=
  snd r <> EmptyString /\ allKind (fst r) (snd r) = true.

(** The first run of [s] is made of characters outside the class. *)
Definition startsOutside (s : string) : bool :=
  match s with
  | EmptyString => false
  | String c _ => negb (isAlnum c)
  end.

End Lib.

(** ** Go channels *)

Module Chan.

Record t (A : Type) : Type := mk {
  buf : list A;      (* values sent and not yet received, oldest first *)
  cap : nat;         (* cap(c); 0 for an unbuffered channel *)
  closed : bool
}.

Arguments mk {A} _ _ _.

(** [make(chan A, n)]. *)
Definition make (A : Type) (n : nat) : t A := mk [] n false.

Inductive sendResult (A : Type) : Type :=
| SendOk (c : t A)    (* the value is in the buffer *)
| SendPanics          (* send on a closed channel *)
| SendBlocks.         (* no room: the sender waits for a receiver *)

Arguments SendPanics {A}.
Arguments SendBlocks {A}.

(** [c <- v] with no receiver waiting. *)
Definition send {A} (c : t A) (v : A) : sendResult A :=
  if closed c then SendPanics
  else if (List.length (buf c) <? cap c)%nat
       then SendOk (mk (buf c ++ [v])%list (cap c) false)
       else SendBlocks.

Inductive recvResult (A : Type) : Type :=
| RecvOk (v : A) (c : t A)  (* [v, ok := <-c] with [ok = true] *)
| RecvClosed                (* zero value and [ok = false] *)
| RecvBlocks.               (* empty and open: the receiver waits *)

Arguments RecvClosed {A}.
Arguments RecvBlocks {A}.

(** [<-c] with no sender waiting. *)
Definition recv {A} (c : t A) : recvResult A :=
  match buf c with
  | v :: rest => RecvOk v (mk rest (cap c) (closed c))
  | [] => if closed c then RecvClosed else RecvBlocks
  end.

(** [close(c)]; closing twice panics. *)
Definition close {A} (c : t A) : option (t A) :=
  if closed c then None else Some (mk (buf c) (cap c) true).

End Chan.

(** ** The component server *)

Module Server.

(** Go's [(T, error)] results. *)
Inductive result (A : Type) : Type :=
| Ok (a : A)
| Err (e : string).

Arguments Err {A} _.

Definition error := option string.

(** [requestMsg] and [responseMsg]: multipart messages, [nil] being [[]]. *)
Definition requestMsg := list string.
Definition responseMsg := list string.

(** [cli.Input], an interface of the cli package: the values its getters
    return for the running process. *)
Record Input : Type := {
  IsTCPEnabled : bool;
  GetTCP : Z;
  GetSocket : string;
  GetComponent : string;
  GetName : string;
  GetVersion : string;
  GetComponentTitle : string;
  GetTimeout : Z             (* milliseconds *)
}.

(** [log.RequestLogger], made by [log.NewRequestLogger(rid)]. *)
Record RequestLogger : Type := NewRequestLogger { tag : string }.

Inductive level : Type := Critical | Error | Warning | Info | Debug.

(** One call of the log package: its level, the request tag when it went
    through a request logger, and the formatted text. *)
Record logEntry : Type := {
  lvl : level;
  req : option string;
  text : string
}.

Definition logGlobal (l : level) (s : string) : logEntry :=
  {| lvl := l; req := None; text := s |}.

Definition logRequest (lg : RequestLogger) (l : level) (s : string)
  : logEntry :=
  {| lvl := l; req := Some (tag lg); text := s |}.

(** [context.Context] as the server builds it. *)
Inductive Context : Type :=
| Background
| WithTimeout (parent : Context) (timeout : Z).

(** Modelled from the spec: the reply envelope of the payload package
    ([payload.Reply], [payload.NewErrorReply]) is not part of the sources;
    the specification describes the error reply as "a reply envelope with
    no declared action-level result and an error.message field". *)
Record ErrorInfo : Type := { Message : string }.

Record Reply (R : Type) : Type := {
  Result : option R;
  ReplyError : option ErrorInfo
}.

Definition NewErrorReply (R : Type) : Reply R :=
  {| Result := None; ReplyError := Some {| Message := "" |} |}.

(** [p.Error.Message = message]. *)
Definition setErrorMessage {R} (p : Reply R) (message : string) : Reply R :=
  {| Result := Result p;
     ReplyError := match ReplyError p with
                   | Some _ => Some {| Message := message |}
                   | None => None
                   end |}.

(** The collaborators of the server that live in other packages: the
    payload types and codec, the methods of [requestMsg], the component's
    registry and the request processor handed to [newServer]. *)
Class Collaborators : Type := {
  Mapping : Type;                 (* payload.Mapping *)
  Command : Type;                 (* payload.Command *)
  zeroCommand : Command;          (* its zero value *)
  ActionResult : Type;            (* what a reply declares for an action *)
  emptyFrame : string;
  (* requestMsg methods *)
  check : requestMsg -> error;
  getSchemas : requestMsg -> option string;
  getRequestID : requestMsg -> string;
  getAction : requestMsg -> string;
  getPayload : requestMsg -> option string;
  (* lib.Pack *)
  Pack : Reply ActionResult -> result string;
  (* lib.Unpack(v, &schemas): the error and the value of [schemas]
     after the call *)
  UnpackSchemas : string -> option Mapping -> error * option Mapping;
  (* lib.Unpack(v, state.command): the destination is passed by value,
     so the caller sees the error only *)
  UnpackCommand : string -> Command -> error;
  (* component.hasCallback *)
  hasCallback : string -> bool;
  (* os.Getpid() *)
  Getpid : Z
}.

Section WithCollaborators.

Context {ext : Collaborators}.

(** [type state struct]; [nil] pointers are [None]. *)
Record state : Type := {
  id : string;
  componentTitle : string;
  action : string;
  schemas : option Mapping;
  command : Command;
  reply : option (Reply ActionResult);
  payload : string;
  input : Input;
  context : option Context;
  logger : RequestLogger
}.

(** [type requestOutput struct]. *)
Record requestOutput : Type := {
  ostate : state;
  err : error;
  response : responseMsg
}.

(** [func createErrorRespose(rid, message string) (responseMsg, error)]. *)
Definition createErrorRespose (rid message : string)
  : result responseMsg :=
  let p := setErrorMessage (NewErrorReply ActionResult) message in
  match Pack p with
  | Err e => Err e
  | Ok data => Ok [rid; emptyFrame; data]
  end.

(** [func (s *server) getAddress() string]. *)
Definition getAddress (i : Input) : string :=
  if IsTCPEnabled i then "tcp://127.0.0.1:" ++ Fmt.dec (GetTCP i)
  else if negb (String.eqb (GetSocket i) "") then "ipc://" ++ GetSocket i
  else Lib.IPC [GetComponent i; GetName i; GetVersion i].

(** *** The reactor's handlers (in [start]) *)

(** What [socket.SendMessage] reports. *)
Inductive sendOutcome : Type :=
| Sent
| SendTerminated (e : string)   (* zmq4.ETERM *)
| SendFailed (e : string).

(** What a reactor handler did: the log calls in order, the messages
    written to the socket, and the error it returned to the reactor. *)
Record handled : Type := {
  logged : list logEntry;
  wire : list responseMsg;
  returned : error
}.

(** [socket.SendMessage(response)] and what follows it, lines 309-317. *)
Definition sendResponse (socket : responseMsg -> sendOutcome)
           (lg : RequestLogger) (response : responseMsg) : handled :=
  match socket response with
  | Sent => {| logged := []; wire := [response]; returned := None |}
  | SendTerminated e => {| logged := []; wire := []; returned := Some e |}
  | SendFailed e =>
      {| logged := [logRequest lg Error
                      ("Failed to send response to client: " ++ e)];
         wire := []; returned := None |}
  end.

(** The channel handler, lines 293-318. *)
Definition onOutput (socket : responseMsg -> sendOutcome)
           (output : requestOutput) : handled :=
  let lg := logger (ostate output) in
  match err output with
  | Some failure =>
      match createErrorRespose (id (ostate output)) failure with
      | Err e =>
          {| logged :=
               [logRequest lg Error
                  ("Request failed with error: " ++ failure);
                logRequest lg Error
                  ("Failed to create error response: " ++ e)];
             wire := []; returned := None |}
      | Ok response => sendResponse socket lg response
      end
  | None => sendResponse socket lg (response output)
  end.

(** What [socket.RecvMessageBytes] reports. *)
Inductive recvOutcome : Type :=
| Received (msg : requestMsg)
| RecvTerminated (e : string)          (* zmq4.ETERM *)
| RecvFailed (msg : requestMsg) (e : string).

(** The socket handler, lines 278-292, up to its send on [msgc]: the log
    calls, the message it goes on to send on [msgc] if any, and the
    error returned when it stops before. *)
Definition onSocket (r : recvOutcome)
  : list logEntry * option requestMsg * error :=
  match r with
  | Received msg => ([], Some msg, None)
  | RecvTerminated e => ([], None, Some e)
  | RecvFailed msg e =>
      ([logGlobal Error ("Failed to read request payload: " ++ e)],
       Some msg, None)
  end.

(** *** startMessageListener *)

(** [type server struct]: the component is reached through
    [hasCallback]; the processor is described by the one output it
    writes to its sink for a request state, [None] when it returns
    without writing. *)
Record server : Type := {
  sinput : Input;
  processor : state -> option requestOutput
}.

Variable s : server.

(** [title := s.input.GetComponentTitle()]. *)
Definition title : string := GetComponentTitle (sinput s).

(** [timeout := time.Duration(s.input.GetTimeout()) * time.Millisecond],
    an int64 count of nanoseconds. *)
Definition timeout : Z := Fmt.wrap64 (GetTimeout (sinput s) * 1000000).

Definition invalidAction (action : string) : string :=
  "Invalid action for component " ++ title ++ ": "
    ++ Fmt.dquote ++ action ++ Fmt.dquote.

Definition invalidPayload (action : string) : string :=
  "Invalid payload for component " ++ title ++ ": "
    ++ Fmt.dquote ++ action ++ Fmt.dquote.

(** [logger.Warningf("Execution timed out after %dms. PID: %d", timeout,
    os.Getpid())]: [%d] prints the int64 behind the duration. *)
Definition timedOut (lg : RequestLogger) : logEntry :=
  logRequest lg Warning
    ("Execution timed out after " ++ Fmt.dec timeout ++ "ms. PID: "
       ++ Fmt.dec Getpid).

(** Lines 152-163: the state literal of a request. *)
Definition newState (schemasNow : option Mapping) (msg : requestMsg)
  : state :=
  {| id := getRequestID msg;
     componentTitle := "";
     action := getAction msg;
     schemas := schemasNow;
     command := zeroCommand;
     reply := None;
     payload := "";
     input := sinput s;
     context := None;
     logger := NewRequestLogger (getRequestID msg) |}.

(** [state.context = ctx]. *)
Definition withContext (st : state) (ctx : Context) : state :=
  {| id := id st; componentTitle := componentTitle st;
     action := action st; schemas := schemas st; command := command st;
     reply := reply st; payload := payload st; input := input st;
     context := Some ctx; logger := logger st |}.

(** [output.err = ...] on [requestOutput{state: &state}]. *)
Definition failed (st : state) (e : string) : requestOutput :=
  {| ostate := st; err := Some e; response := [] |}.

(** The request goroutine of lines 151-205, up to its first blocking
    operation: either an error output to send on [resc], or the state
    with which the processor is started. *)
Inductive dispatched : Type :=
| Rejected (o : requestOutput)
| Launched (st : state).

Definition dispatch (schemasNow : option Mapping) (msg : requestMsg)
  : list logEntry * dispatched :=
  let st := newState schemasNow msg in
  if negb (hasCallback (getAction msg)) then
    ([], Rejected (failed st (invalidAction (action st))))
  else
    match
      match getPayload msg with
      | Some v => UnpackCommand v (command st)
      | None => None
      end
    with
    | Some e =>
        ([logGlobal Critical ("Failed to read payload: " ++ e)],
         Rejected (failed st (invalidPayload (action st))))
    | None =>
        ([], Launched (withContext st (WithTimeout Background timeout)))
    end.

(** Where the request goroutine stands. *)
Inductive workerPc : Type :=
| AtEntry                        (* started, line 152 *)
| AtReject (o : requestOutput)   (* [resc <- output; return], 171 and 181 *)
| AtSelect                       (* the select of line 199 *)
| AtForward (o : requestOutput)  (* [resc <- output], line 201 *)
| Returned.

(** Where the processor goroutine of line 196 stands. *)
Inductive processorPc : Type :=
| NotStarted
| Executing (st : state)         (* the handler runs *)
| AtReply (o : requestOutput)    (* at its send on the sink *)
| Finished
| Panicked.                      (* its send on the closed sink panicked *)

(** One request: its goroutine, its processor, [outc] and [ctx]. *)
Record request : Type := {
  msg : requestMsg;
  pc : workerPc;
  proc : processorPc;
  outc : option (Chan.t requestOutput);  (* [None] before line 192 *)
  ctxDone : bool                         (* [ctx.Done()] is closed *)
}.

Definition spawn (m : requestMsg) : request :=
  {| msg := m; pc := AtEntry; proc := NotStarted;
     outc := None; ctxDone := false |}.

(** What the goroutines share. *)
Record shared : Type := {
  resc : Chan.t requestOutput;
  logs : list logEntry;
  schemasVar : option Mapping
}.

Definition addLogs (sh : shared) (l : list logEntry) : shared :=
  {| resc := resc sh; logs := (logs sh ++ l)%list;
     schemasVar := schemasVar sh |}.

Definition setResc (sh : shared) (c : Chan.t requestOutput) : shared :=
  {| resc := c; logs := logs sh; schemasVar := schemasVar sh |}.

Definition setSchemas (sh : shared) (m : option Mapping) : shared :=
  {| resc := resc sh; logs := logs sh; schemasVar := m |}.

(** [logger := log.NewRequestLogger(rid)]. *)
Definition requestLogger (m : requestMsg) : RequestLogger :=
  NewRequestLogger (getRequestID m).

(** The atomic moves of one request. *)
Inductive move : Type :=
| Begin            (* lines 152-196 *)
| EmitError        (* [resc <- output; return] of an error branch *)
| HandlerReplies   (* the processor reaches its send on the sink *)
| HandlerReturns   (* the processor returns without writing *)
| Receive          (* [case output := <-outc], meeting the send *)
| DeadlinePasses   (* the timer of the context closes [ctx.Done()] *)
| TimeOut          (* [case <-ctx.Done()], lines 202-204 *)
| Forward          (* [resc <- output] of line 201, then return *)
| LateSend.        (* the processor's send finds [outc] closed *)

Definition setPc (r : request) (p : workerPc) : request :=
  {| msg := msg r; pc := p; proc := proc r; outc := outc r;
     ctxDone := ctxDone r |}.

Definition setProc (r : request) (p : processorPc) : request :=
  {| msg := msg r; pc := pc r; proc := p; outc := outc r;
     ctxDone := ctxDone r |}.

(** Returning past line 193 runs the deferred [close(outc)] and
    [cancel()]. *)
Definition returnDeferred (r : request) : option request :=
  match outc r with
  | Some c =>
      match Chan.close c with
      | Some c' =>
          Some {| msg := msg r; pc := Returned; proc := proc r;
                  outc := Some c'; ctxDone := true |}
      | None => None
      end
  | None => None
  end.

(** The processor's [out <- output] on the unbuffered [outc]. *)
Definition sinkSend (r : request) (o : requestOutput)
  : Chan.sendResult requestOutput :=
  match outc r with
  | Some c => Chan.send c o
  | None => Chan.SendBlocks
  end.

Definition fire (m : move) (sh : shared) (r : request)
  : option (shared * request) :=
  match m, pc r, proc r with
  | Begin, AtEntry, _ =>
      match dispatch (schemasVar sh) (msg r) with
      | (l, Rejected o) => Some (addLogs sh l, setPc r (AtReject o))
      | (l, Launched st) =>
          Some (addLogs sh l,
                {| msg := msg r; pc := AtSelect; proc := Executing st;
                   outc := Some (Chan.make requestOutput 0);
                   ctxDone := false |})
      end
  | EmitError, AtReject o, _ =>
      match Chan.send (resc sh) o with
      | Chan.SendOk c => Some (setResc sh c, setPc r Returned)
      | _ => None
      end
  | HandlerReplies, _, Executing st =>
      match processor s st with
      | Some o => Some (sh, setProc r (AtReply o))
      | None => None
      end
  | HandlerReturns, _, Executing st =>
      match processor s st with
      | None => Some (sh, setProc r Finished)
      | Some _ => None
      end
  | Receive, AtSelect, AtReply o =>
      match sinkSend r o with
      | Chan.SendBlocks =>
          (* the blocked send meets the receive of the select *)
          Some (sh, setProc (setPc r (AtForward o)) Finished)
      | _ => None
      end
  | DeadlinePasses, AtSelect, _ | DeadlinePasses, AtForward _, _ =>
      if ctxDone r then None
      else Some (sh, {| msg := msg r; pc := pc r; proc := proc r;
                        outc := outc r; ctxDone := true |})
  | TimeOut, AtSelect, _ =>
      if ctxDone r
      then match returnDeferred r with
           | Some r' =>
               Some (addLogs sh [timedOut (requestLogger (msg r))], r')
           | None => None
           end
      else None
  | Forward, AtForward o, _ =>
      match Chan.send (resc sh) o, returnDeferred r with
      | Chan.SendOk c, Some r' => Some (setResc sh c, r')
      | _, _ => None
      end
  | LateSend, _, AtReply o =>
      match sinkSend r o with
      | Chan.SendPanics => Some (sh, setProc r Panicked)
      | _ => None
      end
  | _, _, _ => None
  end.

(** What a move added to the buffer of [resc] and to the log. *)
Definition emitted (before after : shared) : list requestOutput :=
  skipn (List.length (Chan.buf (resc before))) (Chan.buf (resc after)).

Definition appended (before after : shared) : list logEntry :=
  skipn (List.length (logs before)) (logs after).

(** A request runs among other goroutines: between its own moves the
    rest of the program may change what is shared in any way. *)
Inductive turn : Type :=
| Own (m : move)
| Others (sh : shared).

(** What one request did in a run: its outputs on [resc] and its log
    calls, in order. *)
Record trace : Type := {
  outputs : list requestOutput;
  entries : list logEntry
}.

Definition extend (t : trace) (before after : shared) : trace :=
  {| outputs := (outputs t ++ emitted before after)%list;
     entries := (entries t ++ appended before after)%list |}.

Fixpoint play (ts : list turn) (sh : shared) (r : request) (t : trace)
  : option (shared * request * trace) :=
  match ts with
  | [] => Some (sh, r, t)
  | Own m :: rest =>
      match fire m sh r with
      | Some (sh', r') => play rest sh' r' (extend t sh sh')
      | None => None
      end
  | Others sh' :: rest => play rest sh' r t
  end.

Definition noTrace : trace := {| outputs := []; entries := [] |}.

(** A run of a request from its start. *)
Definition run (ts : list turn) (sh : shared) (m : requestMsg)
  : option (shared * request * trace) :=
  play ts sh (spawn m) noTrace.

(** Where the processor can stand for the state [st] it was started
    with, [closed] telling whether [outc] has been closed. *)
Inductive handlerAt (st : state) (closed : bool) : processorPc -> Prop :=
| HandlerRuns : handlerAt st closed (Executing st)
| HandlerSends o :
    processor s st = Some o -> handlerAt st closed (AtReply o)
| HandlerSilent :
    processor s st = None -> handlerAt st closed Finished
| HandlerPanicked o :
    processor s st = Some o -> closed = true ->
    handlerAt st closed Panicked.

Definition openSink : option (Chan.t requestOutput) :=
  Some (Chan.make requestOutput 0).

Definition closedSink : option (Chan.t requestOutput) :=
  Some (Chan.mk [] 0 true).

(** The situations a request started for [m] can be in, with what it
    has sent on [resc] and logged so far. *)
Inductive situation (m : requestMsg) : request -> trace -> Prop :=
| SitEntry : situation m (spawn m) noTrace
| SitReject sch l o :
    dispatch sch m = (l, Rejected o) ->
    situation m
      {| msg := m; pc := AtReject o; proc := NotStarted;
         outc := None; ctxDone := false |}
      {| outputs := []; entries := l |}
| SitRejected sch l o :
    dispatch sch m = (l, Rejected o) ->
    situation m
      {| msg := m; pc := Returned; proc := NotStarted;
         outc := None; ctxDone := false |}
      {| outputs := [o]; entries := l |}
| SitSelect sch st p d :
    dispatch sch m = ([], Launched st) -> handlerAt st false p ->
    situation m
      {| msg := m; pc := AtSelect; proc := p;
         outc := openSink; ctxDone := d |}
      noTrace
| SitForward sch st o d :
    dispatch sch m = ([], Launched st) -> processor s st = Some o ->
    situation m
      {| msg := m; pc := AtForward o; proc := Finished;
         outc := openSink; ctxDone := d |}
      noTrace
| SitReplied sch st o :
    dispatch sch m = ([], Launched st) -> processor s st = Some o ->
    situation m
      {| msg := m; pc := Returned; proc := Finished;
         outc := closedSink; ctxDone := true |}
      {| outputs := [o]; entries := [] |}
| SitTimedOut sch st p :
    dispatch sch m = ([], Launched st) -> handlerAt st true p ->
    situation m
      {| msg := m; pc := Returned; proc := p;
         outc := closedSink; ctxDone := true |}
      {| outputs := []; entries := [timedOut (requestLogger m)] |}.

(** The request took the branch of [ctx.Done()]. *)
Definition timedOutAt (m : requestMsg) (r : request) (t : trace) : Prop :=
  exists sch st,
    dispatch sch m = ([], Launched st)
    /\ handlerAt st true (proc r)
    /\ msg r = m /\ pc r = Returned /\ outc r = closedSink
    /\ t = {| outputs := [];
              entries := [timedOut (requestLogger m)] |}.

(** The request forwarded the processor's output and returned. *)
Definition repliedAt (m : requestMsg) (r : request) (t : trace) : Prop :=
  exists sch st o,
    dispatch sch m = ([], Launched st)
    /\ processor s st = Some o
    /\ proc r = Finished /\ pc r = Returned /\ outc r = closedSink
    /\ t = {| outputs := [o]; entries := [] |}.

(** A send on [c] would not block. *)
Definition hasRoom (A : Type) (c : Chan.t A) : Prop :=
  Chan.closed c = false /\ List.length (Chan.buf c) < Chan.cap c.

(** The reply envelope that [createErrorRespose] serializes. *)
Definition errorReply (message : string) : Reply ActionResult :=
  {| Result := None; ReplyError := Some {| Message := message |} |}.

(** The handler of the reactor sent exactly [reply] and nothing else. *)
Definition answers (socket : responseMsg -> sendOutcome)
           (o : requestOutput) (reply : responseMsg) : Prop :=
  onOutput socket o
  = {| logged := []; wire := [reply]; returned := None |}.

(** *** The listener goroutine, lines 117-207 *)

Inductive listenerPc : Type := Listening | Left.

Record system : Type := {
  msgc : Chan.t requestMsg;
  listener : listenerPc;
  common : shared;
  requests : list request;
  taken : list requestOutput   (* what the reactor side received *)
}.

(** Lines 135-206: the body of the loop after the receive. *)
Definition handleMessage (m : requestMsg) (sys : system) : system :=
  match check m with
  | Some e =>
      {| msgc := msgc sys; listener := listener sys;
         common := addLogs (common sys) [logGlobal Critical e];
         requests := requests sys; taken := taken sys |}
  | None =>
      let sh :=
        match getSchemas m with
        | Some v =>
            match UnpackSchemas v (schemasVar (common sys)) with
            | (Some e, m') =>
                addLogs (setSchemas (common sys) m')
                  [logGlobal Error ("Failed to read schemas: " ++ e)]
            | (None, m') => setSchemas (common sys) m'
            end
        | None => common sys
        end in
      {| msgc := msgc sys; listener := listener sys; common := sh;
         requests := (requests sys ++ [spawn m])%list;
         taken := taken sys |}
  end.

(** Lines 129-206: one turn of the loop on the two results of
    [msg, closed := <-msgc]. *)
Definition iteration (m : requestMsg) (closed : bool) (sys : system)
  : system :=
  if closed
  then {| msgc := msgc sys; listener := Left; common := common sys;
          requests := requests sys; taken := taken sys |}
  else handleMessage m sys.

(** The receive of line 129.  The second result of a receive is [true]
    when a value was delivered and [false] when the channel is closed
    and empty, the first result then being the zero value. *)
Definition listen (sys : system) : option system :=
  match listener sys with
  | Left => None
  | Listening =>
      match Chan.recv (msgc sys) with
      | Chan.RecvOk m c =>
          Some (iteration m true
                  {| msgc := c; listener := listener sys;
                     common := common sys; requests := requests sys;
                     taken := taken sys |})
      | Chan.RecvClosed => Some (iteration [] false sys)
      | Chan.RecvBlocks => None
      end
  end.

(** [startMessageListener(msgc)]: [resc] has room for 1000 outputs. *)
Definition startMessageListener (c : Chan.t requestMsg) : system :=
  {| msgc := c; listener := Listening;
     common := {| resc := Chan.make requestOutput 1000; logs := [];
                  schemasVar := None |};
     requests := []; taken := [] |}.

(** Something in the server stands for the message [m]: a request
    goroutine started for it, or an output carrying its request id. *)
Definition pendingFor (m : requestMsg) (sys : system) : Prop :=
  (exists r, In r (requests sys) /\ msg r = m)
  \/ (exists o, In o (Chan.buf (resc (common sys)))
                /\ id (ostate o) = getRequestID m).

(** The listener has left its loop and nothing is under way. *)
Definition idle (sys : system) : Prop :=
  listener sys = Left /\ requests sys = []
  /\ Chan.buf (resc (common sys)) = [] /\ taken sys = [].

Fixpoint setNth {A} (i : nat) (a : A) (l : list A) : list A :=
  match l, i with
  | [], _ => []
  | _ :: tl, O => a :: tl
  | x :: tl, S j => x :: setNth j a tl
  end.

(** What can happen next in the running server. *)
Inductive event : Type :=
| Arrives (r : recvOutcome)   (* the socket handler runs, lines 278-292 *)
| CloseMsgc                   (* the deferred [close(msgc)] of [start] *)
| Listens                     (* a turn of the listener loop *)
| Moves (i : nat) (m : move)  (* request [i] makes a move *)
| Takes.                      (* an output leaves [resc] for the reactor *)

Definition happen (e : event) (sys : system) : option system :=
  match e with
  | Arrives r =>
      match onSocket r with
      | (l, Some m, _) =>
          match Chan.send (msgc sys) m with
          | Chan.SendOk c =>
              Some {| msgc := c; listener := listener sys;
                      common := addLogs (common sys) l;
                      requests := requests sys; taken := taken sys |}
          | _ => None
          end
      | (_, None, _) => None
      end
  | CloseMsgc =>
      match Chan.close (msgc sys) with
      | Some c =>
          Some {| msgc := c; listener := listener sys;
                  common := common sys; requests := requests sys;
                  taken := taken sys |}
      | None => None
      end
  | Listens => listen sys
  | Moves i m =>
      match nth_error (requests sys) i with
      | Some r =>
          match fire m (common sys) r with
          | Some (sh, r') =>
              Some {| msgc := msgc sys; listener := listener sys;
                      common := sh;
                      requests := setNth i r' (requests sys);
                      taken := taken sys |}
          | None => None
          end
      | None => None
      end
  | Takes =>
      match Chan.recv (resc (common sys)) with
      | Chan.RecvOk o c =>
          Some {| msgc := msgc sys; listener := listener sys;
                  common := setResc (common sys) c;
                  requests := requests sys;
                  taken := (taken sys ++ [o])%list |}
      | _ => None
      end
  end.

Fixpoint happenAll (es : list event) (sys : system) : option system :=
  match es with
  | [] => Some sys
  | e :: rest =>
      match happen e sys with
      | Some sys' => happenAll rest sys'
      | None => None
      end
  end.

(** The states the server can be in after [startMessageListener]. *)
Definition reachable (sys : system) : Prop :=
  exists es, happenAll es (startMessageListener (Chan.make requestMsg 1000))
             = Some sys.

(** No request goroutine has been started, no output exists, and the log
    holds nothing but what the socket handler wrote (error level). *)
Definition silent (sys : system) : Prop :=
  requests sys = [] /\ Chan.buf (resc (common sys)) = [] /\ taken sys = []
  /\ Forall (fun l => lvl l = Error) (logs (common sys)).

(** The server has reached [sys] by a run in which the socket handler
    read [m] and sent it on [msgc]. *)
Definition delivered (m : requestMsg) (sys : system) : Prop :=
  exists before after,
    happenAll (before ++ Arrives (Received m) :: after)%list
      (startMessageListener (Chan.make requestMsg 1000)) = Some sys.

End WithCollaborators.

End Server.

(** ** pipeOutput *)

Module Pipe.

Section Forwarding.

(** The element type; boxing a value as [interface{}] keeps it. *)
Variable A : Type.

(** The goroutine of lines 66-70. *)
Inductive forwarderPc : Type :=
| AtRange            (* [for output := range c] *)
| AtSend (v : A)     (* [pipe <- output] *)
| Exited.            (* [c] was closed and drained *)

Record state : Type := {
  c : Chan.t A;
  pipe : Chan.t A;
  forwarder : forwarderPc;
  sentOn : list A;     (* history: every value sent on [c], in order *)
  received : list A    (* history: every value read from [pipe] *)
}.

(** [func pipeOutput(c <-chan requestOutput) <-chan interface{}]: the
    state right after the call; what [c] holds was sent on it before. *)
Definition pipeOutput (ch : Chan.t A) : state :=
  {| c := ch; pipe := Chan.make A (Chan.cap ch); forwarder := AtRange;
     sentOn := Chan.buf ch; received := [] |}.

Inductive event : Type :=
| Send (v : A)   (* a goroutine sends [v] on [c] *)
| Close          (* [close(c)] *)
| Range          (* the forwarder receives from [c] *)
| Push           (* the forwarder sends on [pipe] *)
| Read.          (* the reactor receives from [pipe] *)

Definition holding (f : forwarderPc) : list A :=
  match f with
  | AtSend v => [v]
  | _ => []
  end.

Definition happen (e : event) (st : state) : option state :=
  match e with
  | Send v =>
      match Chan.send (c st) v with
      | Chan.SendOk c' =>
          Some {| c := c'; pipe := pipe st; forwarder := forwarder st;
                  sentOn := (sentOn st ++ [v])%list;
                  received := received st |}
      | Chan.SendBlocks =>
          (* no room: the value goes straight to a waiting receiver *)
          match forwarder st, Chan.buf (c st) with
          | AtRange, [] =>
              Some {| c := c st; pipe := pipe st; forwarder := AtSend v;
                      sentOn := (sentOn st ++ [v])%list;
                      received := received st |}
          | _, _ => None
          end
      | Chan.SendPanics => None
      end
  | Close =>
      match Chan.close (c st) with
      | Some c' =>
          Some {| c := c'; pipe := pipe st; forwarder := forwarder st;
                  sentOn := sentOn st; received := received st |}
      | None => None
      end
  | Range =>
      match forwarder st with
      | AtRange =>
          match Chan.recv (c st) with
          | Chan.RecvOk v c' =>
              Some {| c := c'; pipe := pipe st; forwarder := AtSend v;
                      sentOn := sentOn st; received := received st |}
          | Chan.RecvClosed =>
              Some {| c := c st; pipe := pipe st; forwarder := Exited;
                      sentOn := sentOn st; received := received st |}
          | Chan.RecvBlocks => None
          end
      | _ => None
      end
  | Push =>
      match forwarder st with
      | AtSend v =>
          match Chan.send (pipe st) v with
          | Chan.SendOk p' =>
              Some {| c := c st; pipe := p'; forwarder := AtRange;
                      sentOn := sentOn st; received := received st |}
          | _ => None
          end
      | _ => None
      end
  | Read =>
      match Chan.recv (pipe st) with
      | Chan.RecvOk v p' =>
          Some {| c := c st; pipe := p'; forwarder := forwarder st;
                  sentOn := sentOn st;
                  received := (received st ++ [v])%list |}
      | _ =>
          (* nothing buffered: the reader meets a blocked send *)
          match forwarder st with
          | AtSend v =>
              match Chan.send (pipe st) v with
              | Chan.SendBlocks =>
                  Some {| c := c st; pipe := pipe st;
                          forwarder := AtRange; sentOn := sentOn st;
                          received := (received st ++ [v])%list |}
              | _ => None
              end
          | _ => None
          end
      end
  end.

Fixpoint happenAll (es : list event) (st : state) : option state :=
  match es with
  | [] => Some st
  | e :: rest =>
      match happen e st with
      | Some st' => happenAll rest st'
      | None => None
      end
  end.

(** The values put on the returned channel so far, in order. *)
Definition forwarded (st : state) : list A :=
  (received st ++ Chan.buf (pipe st))%list.

(** The values sent on [c] that are still on their way, in order. *)
Definition pending (st : state) : list A :=
  (holding (forwarder st) ++ Chan.buf (c st))%list.

(** Events of the forwarder and of the reader only. *)
Definition internal (e : event) : bool :=
  match e with
  | Range | Push | Read => true
  | _ => false
  end.

(** [st'] is reached from [st] by the forwarder and the reader alone. *)
Definition drains (st st' : state) : Prop :=
  exists es, forallb internal es = true /\ happenAll es st = Some st'.

(** What every state of the pipe satisfies, [n] being the capacity of
    the channel given to [pipeOutput]. *)
Record invariant (n : nat) (st : state) : Prop := {
  inv_history : sentOn st = (forwarded st ++ pending st)%list;
  inv_cap : Chan.cap (pipe st) = n;
  inv_open : Chan.closed (pipe st) = false;
  inv_room : List.length (Chan.buf (pipe st)) <= n;
  inv_exited :
    forwarder st = Exited ->
    Chan.buf (c st) = [] /\ Chan.closed (c st) = true
}.

End Forwarding.

End Pipe.

(** ** Concrete collaborators, for examples *)

Module Wire.
Import Server.

(** Modelled from the spec: the methods of [requestMsg] are not part of
    the sources.  The specification gives the inbound wire message as the
    frames [[peer-identity, <empty>, request-id, action-name, schema-blob?,
    payload-blob?]] and says that "absence of required frames is a
    validation error"; an optional frame that is missing or empty is
    [nil]. *)
Definition check (m : requestMsg) : error :=
  if (List.length m <? 4)%nat
  then Some "Invalid multipart request" else None.

Definition getRequestID (m : requestMsg) : string := nth 2 m "".

Definition getAction (m : requestMsg) : string := nth 3 m "".

Definition optional (m : requestMsg) (n : nat) : option string :=
  match nth_error m n with
  | Some v => if String.eqb v "" then None else Some v
  | None => None
  end.

Definition getSchemas (m : requestMsg) : option string := optional m 4.

Definition getPayload (m : requestMsg) : option string := optional m 5.

(** A request id can be read off the message. *)
Definition hasRequestID (m : requestMsg) : bool :=
  match nth_error m 2 with
  | Some v => negb (String.eqb v "")
  | None => false
  end.

(** A stand-in for the codec: blobs are text, the blob "garbage" does not
    decode. *)
Definition pack (p : Reply string) : result string :=
  Ok (match Result p with Some r => "result=" ++ r | None => "" end
      ++ match ReplyError p with
         | Some e => "error=" ++ Message e
         | None => ""
         end).

Definition packFails (p : Reply string) : result string :=
  Err "unsupported value".

Definition unpackSchemas (v : string) (old : option string)
  : error * option string :=
  if String.eqb v "garbage" then (Some "unexpected end of stream", old)
  else (None, Some v).

Definition unpackCommand (v : string) (dst : string) : error :=
  if String.eqb v "garbage" then Some "unexpected end of stream" else None.

(** A component with the actions "create" and "read". *)
Definition hasCallback (a : string) : bool :=
  String.eqb a "create" || String.eqb a "read".

Definition collaborators (p : Reply string -> result string)
  : Collaborators :=
  {| Mapping := string;
     Command := string;
     zeroCommand := "";
     ActionResult := string;
     emptyFrame := "";
     Server.check := check;
     Server.getSchemas := getSchemas;
     Server.getRequestID := getRequestID;
     Server.getAction := getAction;
     Server.getPayload := getPayload;
     Pack := p;
     UnpackSchemas := unpackSchemas;
     UnpackCommand := unpackCommand;
     Server.hasCallback := hasCallback;
     Getpid := 4242 |}.

Definition sampleInput : Input :=
  {| IsTCPEnabled := false; GetTCP := 0; GetSocket := "";
     GetComponent := "service"; GetName := "users"; GetVersion := "1.0.0";
     GetComponentTitle := "users (1.0.0)"; GetTimeout := 30000 |}.

(** A processor that answers every request with one reply. *)
Definition sampleServer (p : Reply string -> result string)
  : @server (collaborators p) :=
  {| sinput := sampleInput;
     processor := fun st =>
       Some {| ostate := st; err := None;
               response := [id st; ""; "done:" ++ action st] |} |}.

Definition socketUp (m : responseMsg) : sendOutcome := Sent.

Definition ext : Collaborators := collaborators pack.

Definition srv : @server ext := sampleServer pack.

(** The same server with a codec that cannot pack. *)
Definition extBroken : Collaborators := collaborators packFails.

(** What is shared when the first request starts. *)
Definition fresh : @shared ext :=
  {| resc := Chan.make (@requestOutput ext) 1000; logs := [];
     schemasVar := None |}.

(** Sample messages. *)
Definition unknownAction : requestMsg :=
  ["peer-1"; ""; "req-1"; "delete"].

Definition badPayload : requestMsg :=
  ["peer-1"; ""; "req-2"; "create"; ""; "garbage"].

Definition goodRequest : requestMsg :=
  ["peer-1"; ""; "req-3"; "create"; ""; "name=Ann"].

Definition noAction : requestMsg := ["peer-1"; ""; "req-4"].

Definition srvBroken : @server extBroken := sampleServer packFails.

(** An error output of the server whose codec cannot pack. *)
Definition refusal : @requestOutput extBroken :=
  failed (newState srvBroken None unknownAction)
    (invalidAction srvBroken "delete").

(** The same collaborators with a validation that lets every message
    through, the zero message included. *)
Definition lenient : Collaborators :=
  {| Mapping := string;
     Command := string;
     zeroCommand := "";
     ActionResult := string;
     emptyFrame := "";
     Server.check := fun _ => None;
     Server.getSchemas := getSchemas;
     Server.getRequestID := getRequestID;
     Server.getAction := getAction;
     Server.getPayload := getPayload;
     Pack := pack;
     UnpackSchemas := unpackSchemas;
     UnpackCommand := unpackCommand;
     Server.hasCallback := hasCallback;
     Getpid := 4242 |}.

Definition srvLenient : @server lenient :=
  {| sinput := sampleInput; processor := fun _ => None |}.

(** Schedules of one request. *)
Definition refusing : list (@turn ext) := [Own Begin; Own EmitError].

Definition timingOut : list (@turn ext) :=
  [Own Begin; Own DeadlinePasses; Own TimeOut].

Definition replyingLate : list (@turn ext) :=
  [Own Begin; Own DeadlinePasses; Own TimeOut; Own HandlerReplies].

End Wire.

(** ** What a generated socket name looks like *)

Module Names.
Import Lib.

(** The replacement character of [IPC]. *)
Definition dash : ascii := "-"%char.

Definition isDash (c : ascii) : bool := Ascii.eqb c dash.

(** The characters a generated name can hold. *)
Definition nameChar (c : ascii) : bool := isAlnum c || isDash c.

Fixpoint allChars (p : ascii -> bool) (s : string) : bool :=
  match s with
  | EmptyString => true
  | String c s' => p c && allChars p s'
  end.

(** No two dashes follow each other. *)
Fixpoint noDoubleDash (s : string) : bool :=
  match s with
  | String c ((String d _) as s') =>
      negb (isDash c && isDash d) && noDoubleDash s'
  | _ => true
  end.

(** Letters, digits and single dashes only. *)
Definition clean (s : string) : bool :=
  allChars nameChar s && noDoubleDash s.

(** The characters of [s] that satisfy [p], in order. *)
Fixpoint keep (p : ascii -> bool) (s : string) : string :=
  match s with
  | EmptyString => EmptyString
  | String c s' => if p c then String c (keep p s') else keep p s'
  end.

Definition startsDash (s : string) : bool :=
  match s with
  | String c _ => isDash c
  | EmptyString => false
  end.

(** The scheme tag of [IPC]. *)
Definition tag : string := "ipc://@kusanagi-".

(** [s] starts with [p]. *)
Fixpoint hasPrefix (p s : string) : bool :=
  match p with
  | EmptyString => true
  | String a p' =>
      match s with
      | String b s' => Ascii.eqb a b && hasPrefix p' s'
      | EmptyString => false
      end
  end.

End Names.

(** ** The start of the server *)

Module Start.
Import Server.

(** The calls [start] makes, in the order it makes them: on the zmq4
    package, on the log, and on its own channels and goroutines. *)
Inductive call : Type :=
| NewContext
| WatchSignals                       (* the goroutine of lines 220-236 *)
| NewSocket
| SetLinger (n : Z)
| SetRcvhwm (n : Z)
| Log (l : level) (text : string)
| Bind (address : string)
| MakeMsgc (n : nat)
| StartListener                      (* [s.startMessageListener(msgc)] *)
| PipeOutput
| AddSocket
| AddChannel
| RunReactor
| CloseMsgc
| Unbind (address : string)
| CloseSocket.

(** What the calls that can fail report. *)
Record zmq : Type := {
  newContext : error;
  newSocket : error;
  setLinger : Z -> error;
  setRcvhwm : Z -> error;
  bind : string -> error
}.

(** The calls made by a piece of the function and the error it returns. *)
Definition body : Type := list call * error.

(** A call that cannot fail, then the rest of the function. *)
Definition emit (c : call) (rest : body) : body :=
  (c :: fst rest, snd rest).

(** A call whose error makes the function return [wrap e]. *)
Definition attempt (c : call) (r : error) (wrap : string -> string)
           (rest : body) : body :=
  match r with
  | Some e => ([c], Some (wrap e))
  | None => emit c rest
  end.

(** [defer d]: [d] is called when the function returns, however it does. *)
Definition defer (d : call) (rest : body) : body :=
  (fst rest ++ [d], snd rest)%list.

Definition listening (address : string) : string :=
  "Listening for request at address: "
    ++ Fmt.dquote ++ address ++ Fmt.dquote.

Definition bindFailed (address e : string) : string :=
  "Faled to open socket at address "
    ++ Fmt.dquote ++ address ++ Fmt.dquote ++ ": " ++ e.

(** [func (s *server) start() error], lines 212-322; what the reactor
    does while it runs is the matter of [onSocket] and [onOutput]. *)
Definition start (env : zmq) (i : Input) : body :=
  attempt NewContext (newContext env) (fun e => e)
  (emit WatchSignals
  (attempt NewSocket (newSocket env)
     (fun e => "Failed to create socket: " ++ e)
  (defer CloseSocket
  (attempt (SetLinger 0) (setLinger env 0)
     (fun e => "Failed to set socket's linger option: " ++ e)
  (attempt (SetRcvhwm 1000) (setRcvhwm env 1000)
     (fun e => "Failed to set socket's high water mark option: " ++ e)
  (emit (Log Debug (listening (getAddress i)))
  (attempt (Bind (getAddress i)) (bind env (getAddress i))
     (bindFailed (getAddress i))
  (defer (Unbind (getAddress i))
  (emit (MakeMsgc 1000)
  (defer CloseMsgc
  (emit StartListener
  (emit PipeOutput
  (emit AddSocket
  (emit AddChannel
  (emit RunReactor
  (emit (Log Info "Component stopped")
  ([], None))))))))))))))))).

(** Every call that can fail succeeds. *)
Definition setupSucceeds (env : zmq) (i : Input) : Prop :=
  newContext env = None /\ newSocket env = None
  /\ setLinger env 0 = None /\ setRcvhwm env 1000 = None
  /\ bind env (getAddress i) = None.

(** One of the calls that can fail reports [e]. *)
Definition reports (env : zmq) (i : Input) (e : string) : Prop :=
  newContext env = Some e \/ newSocket env = Some e
  \/ setLinger env 0 = Some e \/ setRcvhwm env 1000 = Some e
  \/ bind env (getAddress i) = Some e.

(** A zmq4 package on which everything works. *)
Definition working : zmq :=
  {| newContext := None; newSocket := None;
     setLinger := fun _ => None; setRcvhwm := fun _ => None;
     bind := fun _ => None |}.

(** The address is already in use. *)
Definition addressTaken : zmq :=
  {| newContext := None; newSocket := None;
     setLinger := fun _ => None; setRcvhwm := fun _ => None;
     bind := fun _ => Some "address already in use" |}.

End Start.

(** ** More on the reactor's handlers and the listener *)

Module Reactor.
Import Server.

Section WithCollaborators.

Context {ext : Collaborators}.

(** [output.response = r]. *)
Definition withResponse (o : requestOutput) (r : responseMsg)
  : requestOutput :=
  {| ostate := ostate o; err := err o; response := r |}.

(** The log call of the socket handler for a failed read. *)
Definition failedRead (e : string) : logEntry :=
  logGlobal Error ("Failed to read request payload: " ++ e).

(** A log call made at the error level through the logger of [o]. *)
Definition errorOf (o : requestOutput) (l : logEntry) : Prop :=
  lvl l = Error /\ req l = Some (tag (logger (ostate o))).

(** Everything that went into [resc], in order: what the reactor side
    took and what is still buffered. *)
Definition passed (sys : system) : list requestOutput :=
  (taken sys ++ Chan.buf (resc (common sys)))%list.

End WithCollaborators.

End Reactor.

(** * Properties *)

(** ** Text *)

Module FmtFacts.
Import Fmt.

Lemma append_assoc (a b c : string) : (a ++ b) ++ c = a ++ b ++ c.
Proof. induction a; simpl; congruence. Qed.

Lemma append_nil_r (a : string) : a ++ "" = a.
Proof. induction a; simpl; congruence. Qed.

Lemma mentions_here (pre s post : string) : mentions (pre ++ s ++ post) s.
Proof. now exists pre, post. Qed.

Lemma mentions_last (pre s : string) : mentions (pre ++ s) s.
Proof. exists pre, "". now rewrite append_nil_r. Qed.

Lemma mentions_after (pre t s : string) :
  mentions t s -> mentions (pre ++ t) s.
Proof.
  intros (a & b & ->). exists (pre ++ a), b. now rewrite append_assoc.
Qed.

End FmtFacts.

(** ** Channel operations *)

Module ChanFacts.

Section Facts.

Variable A : Type.
Implicit Types (c : Chan.t A) (v : A).

Lemma send_ok c v c' :
  Chan.send c v = Chan.SendOk c' ->
  Chan.closed c = false
  /\ List.length (Chan.buf c) < Chan.cap c
  /\ c' = Chan.mk (Chan.buf c ++ [v])%list (Chan.cap c) false.
Proof.
  unfold Chan.send. destruct (Chan.closed c); [discriminate|].
  destruct (Nat.ltb_spec (List.length (Chan.buf c)) (Chan.cap c));
    [|discriminate].
  intros E. inversion E. auto.
Qed.

Lemma send_blocks c v :
  Chan.send c v = Chan.SendBlocks ->
  Chan.closed c = false /\ Chan.cap c <= List.length (Chan.buf c).
Proof.
  unfold Chan.send. destruct (Chan.closed c); [discriminate|].
  destruct (Nat.ltb_spec (List.length (Chan.buf c)) (Chan.cap c));
    [discriminate|]. auto.
Qed.

Lemma send_panics c v :
  Chan.send c v = Chan.SendPanics <-> Chan.closed c = true.
Proof.
  unfold Chan.send. destruct (Chan.closed c); [tauto|].
  destruct (List.length (Chan.buf c) <? Chan.cap c)%nat;
    split; discriminate.
Qed.

Lemma send_room c v :
  Chan.closed c = false -> List.length (Chan.buf c) < Chan.cap c ->
  Chan.send c v
  = Chan.SendOk (Chan.mk (Chan.buf c ++ [v])%list (Chan.cap c) false).
Proof.
  intros Ho Hl. unfold Chan.send. rewrite Ho.
  apply Nat.ltb_lt in Hl. now rewrite Hl.
Qed.

Lemma recv_ok c v c' :
  Chan.recv c = Chan.RecvOk v c' ->
  Chan.buf c = v :: Chan.buf c'
  /\ Chan.cap c' = Chan.cap c /\ Chan.closed c' = Chan.closed c.
Proof.
  unfold Chan.recv. destruct (Chan.buf c) as [|x rest].
  - destruct (Chan.closed c); discriminate.
  - intros H. inversion H. subst. simpl. auto.
Qed.

Lemma recv_closed c :
  Chan.recv c = Chan.RecvClosed ->
  Chan.buf c = [] /\ Chan.closed c = true.
Proof.
  unfold Chan.recv. destruct (Chan.buf c); [|discriminate].
  destruct (Chan.closed c); [auto|discriminate].
Qed.

Lemma recv_blocks c :
  Chan.recv c = Chan.RecvBlocks ->
  Chan.buf c = [] /\ Chan.closed c = false.
Proof.
  unfold Chan.recv. destruct (Chan.buf c); [|discriminate].
  destruct (Chan.closed c); [discriminate|auto].
Qed.

Lemma close_open c c' :
  Chan.close c = Some c' ->
  Chan.closed c = false
  /\ c' = Chan.mk (Chan.buf c) (Chan.cap c) true.
Proof.
  unfold Chan.close. destruct (Chan.closed c); [discriminate|].
  intros H. inversion H. auto.
Qed.

End Facts.

End ChanFacts.

(** ** The IPC address *)

Module LibFacts.
Import Lib.

#[local] Arguments isAlnum : simpl never.

Lemma runs_head_kind c s :
  exists t rest, runs (String c s) = (isAlnum c, String c t) :: rest.
Proof.
  simpl. destruct (runs s) as [|[b t] rest].
  - now exists EmptyString, [].
  - destruct (Bool.eqb b (isAlnum c)) eqn:E.
    + apply Bool.eqb_prop in E. subst b. now exists t, rest.
    + now exists EmptyString, ((b, t) :: rest).
Qed.

Lemma collapseRuns_inside c s :
  isAlnum c = true -> collapseRuns (String c s) = String c (collapseRuns s).
Proof.
  intros Hc. unfold collapseRuns. simpl. rewrite Hc.
  destruct (runs s) as [|[b t] rest] eqn:E; [reflexivity|].
  destruct b; simpl.
  - unfold collapseRun at 1. simpl. destruct rest; reflexivity.
  - unfold flatten. simpl. reflexivity.
Qed.

Lemma collapseRuns_outside c s :
  isAlnum c = false ->
  collapseRuns (String c s) =
  if startsOutside s then collapseRuns s else "-" ++ collapseRuns s.
Proof.
  intros Hc. unfold collapseRuns.
  destruct s as [|d s]; [simpl; now rewrite Hc|].
  destruct (runs_head_kind d s) as (t & rest & E).
  change (runs (String c (String d s)))
    with (match runs (String d s) with
          | (b, t) :: rest =>
              if Bool.eqb b (isAlnum c)
              then (b, String c t) :: rest
              else (isAlnum c, String c EmptyString) :: (b, t) :: rest
          | [] => [(isAlnum c, String c EmptyString)]
          end).
  rewrite E, Hc. cbn [startsOutside].
  destruct (isAlnum d); simpl.
  - unfold flatten. simpl. reflexivity.
  - unfold collapseRun at 1. simpl. unfold collapseRun at 3. simpl.
    destruct rest; reflexivity.
Qed.

Lemma replaceFrom_collapse s :
  replaceFrom 0 s = collapseRuns s
  /\ (if startsOutside s then "-" ++ replaceFrom (matchLen s) s
      else replaceFrom (matchLen s) s) = collapseRuns s.
Proof.
  induction s as [|c s [IH1 IH2]]; [split; reflexivity|].
  destruct (isAlnum c) eqn:Hc.
  - assert (H : replaceFrom 0 (String c s) = collapseRuns (String c s)).
    { rewrite collapseRuns_inside by assumption.
      simpl. rewrite Hc. now rewrite IH1. }
    split; [exact H|].
    cbn [startsOutside matchLen]. rewrite Hc. exact H.
  - assert (H : "-" ++ replaceFrom (matchLen s) s
                = collapseRuns (String c s)).
    { rewrite collapseRuns_outside by assumption.
      destruct (startsOutside s) eqn:Hs.
      - exact IH2.
      - now rewrite IH2. }
    split.
    + rewrite <- H. simpl. now rewrite Hc.
    + cbn [startsOutside matchLen]. rewrite Hc. exact H.
Qed.

Lemma runs_flatten s : flatten (map unrun (runs s)) = s.
Proof.
  induction s as [|c s IH]; [reflexivity|].
  simpl. destruct (runs s) as [|[b t] rest] eqn:E.
  - simpl in IH. subst s. reflexivity.
  - destruct (Bool.eqb b (isAlnum c)).
    + rewrite <- IH. unfold flatten, unrun. simpl.
      destruct rest; reflexivity.
    + rewrite <- IH. unfold flatten, unrun. simpl. reflexivity.
Qed.

Lemma runs_wellFormed s : Forall wellFormedRun (runs s).
Proof.
  induction s as [|c s IH]; [constructor|].
  simpl. destruct (runs s) as [|[b t] rest] eqn:E.
  - constructor; [|constructor]. split; [discriminate|].
    simpl. now rewrite Bool.eqb_reflx.
  - destruct (Bool.eqb b (isAlnum c)) eqn:Hb.
    + inversion IH as [|? ? [_ Hk] Hrest]; subst.
      constructor; [|assumption]. split; [discriminate|].
      simpl in *. apply Bool.eqb_prop in Hb. subst b.
      now rewrite Bool.eqb_reflx.
    + constructor; [|assumption]. split; [discriminate|].
      simpl. now rewrite Bool.eqb_reflx.
Qed.

Lemma runs_alternating s : alternating (runs s).
Proof.
  induction s as [|c s IH]; [exact I|].
  simpl. destruct (runs s) as [|[b t] rest] eqn:E; [exact I|].
  destruct (Bool.eqb b (isAlnum c)) eqn:Hb.
  - destruct rest; [exact I|]. exact IH.
  - split; [|exact IH]. simpl. intros H. rewrite H in Hb.
    now rewrite Bool.eqb_reflx in Hb.
Qed.

(** C8.  The generated address is a function of the identity strings: the
    scheme tag "ipc://@kusanagi-" followed by the strings joined with "-",
    in which every maximal run of characters outside [a-zA-Z0-9] is
    replaced by one "-".  The runs are a partition of the joined string
    into non-empty stretches of one kind, neighbours being of different
    kinds. *)
Theorem IPC_collapses_runs (args : list string) :
  IPC args = "ipc://@kusanagi-" ++ collapseRuns (Join args)
  /\ flatten (map unrun (runs (Join args))) = Join args
  /\ Forall wellFormedRun (runs (Join args))
  /\ alternating (runs (Join args)).
Proof.
  repeat split.
  - unfold IPC, ReplaceAllString.
    now rewrite (proj1 (replaceFrom_collapse (Join args))).
  - apply runs_flatten.
  - apply runs_wellFormed.
  - apply runs_alternating.
Qed.

Example IPC_service :
  IPC ["service"; "users"; "1.0.0"] = "ipc://@kusanagi-service-users-1-0-0".
Proof. reflexivity. Qed.

Example IPC_runs :
  IPC ["my  svc"; "..v2!"; ""] = "ipc://@kusanagi-my-svc-v2-".
Proof. reflexivity. Qed.

End LibFacts.

(** ** pipeOutput forwards every value once and in order *)

Module PipeFacts.
Import Pipe.

Section Forwarding.

Variable A : Type.

Lemma invariant_init (ch : Chan.t A) :
  invariant (Chan.cap ch) (pipeOutput ch).
Proof.
  constructor; simpl; try reflexivity; try lia; try discriminate.
Qed.

Ltac chan_facts :=
  repeat match goal with
    | H : Chan.send _ _ = Chan.SendOk _ |- _ =>
        apply ChanFacts.send_ok in H; destruct H as (? & ? & ?)
    | H : Chan.send _ _ = Chan.SendBlocks |- _ =>
        apply ChanFacts.send_blocks in H; destruct H as (? & ?)
    | H : Chan.recv _ = Chan.RecvOk _ _ |- _ =>
        apply ChanFacts.recv_ok in H; destruct H as (? & ? & ?)
    | H : Chan.recv _ = Chan.RecvClosed |- _ =>
        apply ChanFacts.recv_closed in H; destruct H as (? & ?)
    | H : Chan.recv _ = Chan.RecvBlocks |- _ =>
        apply ChanFacts.recv_blocks in H; destruct H as (? & ?)
    | H : Chan.close _ = Some _ |- _ =>
        apply ChanFacts.close_open in H; destruct H as (? & ?)
    end.

Ltac list_eq :=
  repeat rewrite <- app_assoc; simpl; repeat rewrite app_nil_r;
  try reflexivity.

Lemma invariant_step n e (st st' : state A) :
  invariant n st -> happen e st = Some st' -> invariant n st'.
Proof.
  intros [Hh Hc Ho Hr He] Hs.
  destruct st as [ch p f so rc].
  unfold forwarded, pending in *. simpl in *. subst so.
  destruct e; simpl in Hs.
  - (* Send *)
    destruct (Chan.send ch v) eqn:E; try discriminate.
    + inversion Hs; subst; clear Hs. chan_facts. subst.
      constructor; unfold forwarded, pending; simpl; auto.
      * list_eq.
      * intros Hf. destruct (He Hf). congruence.
    + destruct f; try discriminate.
      destruct (Chan.buf ch) eqn:Eb; try discriminate.
      inversion Hs; subst; clear Hs.
      constructor; unfold forwarded, pending; simpl; auto.
      * rewrite Eb. list_eq.
      * discriminate.
  - (* Close *)
    destruct (Chan.close ch) eqn:E; try discriminate.
    inversion Hs; subst; clear Hs. chan_facts. subst.
    constructor; unfold forwarded, pending; simpl; auto.
    intros Hf. destruct (He Hf). auto.
  - (* Range *)
    destruct f; try discriminate.
    destruct (Chan.recv ch) eqn:E; try discriminate;
      inversion Hs; subst; clear Hs; chan_facts;
      constructor; unfold forwarded, pending; simpl; auto;
      try discriminate.
    match goal with H : Chan.buf ch = _ |- _ => rewrite H end.
    reflexivity.
  - (* Push *)
    destruct f; try discriminate.
    destruct (Chan.send p v) eqn:E; try discriminate.
    inversion Hs; subst; clear Hs. chan_facts. subst.
    constructor; unfold forwarded, pending; simpl; auto.
    + list_eq.
    + rewrite length_app. simpl. lia.
    + discriminate.
  - (* Read *)
    destruct (Chan.recv p) eqn:E.
    + inversion Hs; subst; clear Hs. chan_facts.
      match goal with H : Chan.buf p = _ |- _ => rewrite H in * end.
      constructor; unfold forwarded, pending; simpl; auto; try congruence.
      * list_eq.
      * simpl in Hr. lia.
    + chan_facts. congruence.
    + destruct f; try discriminate.
      destruct (Chan.send p v) eqn:E'; try discriminate.
      inversion Hs; subst; clear Hs. chan_facts.
      constructor; unfold forwarded, pending; simpl; auto.
      * match goal with H : Chan.buf p = _ |- _ => rewrite H end.
        list_eq.
      * discriminate.
Qed.

Lemma invariant_run n es : forall (st st' : state A),
  invariant n st -> happenAll es st = Some st' -> invariant n st'.
Proof.
  induction es as [|e es IH]; simpl; intros st st' Hi Hr.
  - now inversion Hr; subst.
  - destruct (happen e st) as [st1|] eqn:E; [|discriminate].
    eapply IH; [|exact Hr]. eapply invariant_step; eauto.
Qed.

Lemma happenAll_app es1 : forall es2 (st st1 st2 : state A),
  happenAll es1 st = Some st1 -> happenAll es2 st1 = Some st2 ->
  happenAll (es1 ++ es2) st = Some st2.
Proof.
  induction es1 as [|e es1 IH]; simpl; intros es2 st st1 st2 H1 H2.
  - now inversion H1; subst.
  - destruct (happen e st); [|discriminate]. eauto.
Qed.

Lemma drains_refl (st : state A) : drains st st.
Proof. now exists []. Qed.

Lemma drains_trans (st1 st2 st3 : state A) :
  drains st1 st2 -> drains st2 st3 -> drains st1 st3.
Proof.
  intros (es1 & I1 & R1) (es2 & I2 & R2).
  exists (@app (event A) es1 es2). split.
  - rewrite forallb_app. now rewrite I1, I2.
  - eapply happenAll_app; eauto.
Qed.

Lemma drains_one e (st st' : state A) :
  internal e = true -> happen e st = Some st' -> drains st st'.
Proof.
  intros Hi Hs. exists [e]. simpl. now rewrite Hi, Hs.
Qed.

(** The reader empties the buffer of the returned channel. *)
Lemma drain_pipe (pb : list A) : forall ch n cl f so rc,
  drains {| c := ch; pipe := Chan.mk pb n cl; forwarder := f;
            sentOn := so; received := rc |}
         {| c := ch; pipe := Chan.mk [] n cl; forwarder := f;
            sentOn := so; received := (rc ++ pb)%list |}.
Proof.
  induction pb as [|v pb IH]; intros ch n cl f so rc.
  - rewrite app_nil_r. apply drains_refl.
  - eapply drains_trans.
    + apply (@drains_one (Read A)); reflexivity.
    + simpl. replace (rc ++ v :: pb)%list with ((rc ++ [v]) ++ pb)%list
        by now rewrite <- app_assoc.
      apply IH.
Qed.

(** A value held by the forwarder reaches the reader. *)
Lemma deliver_held (v : A) ch n f' so rc :
  f' = AtSend v ->
  drains {| c := ch; pipe := Chan.mk [] n false; forwarder := f';
            sentOn := so; received := rc |}
         {| c := ch; pipe := Chan.mk [] n false; forwarder := AtRange A;
            sentOn := so; received := (rc ++ [v])%list |}.
Proof.
  intros ->. destruct n as [|n].
  - apply (@drains_one (Read A)); reflexivity.
  - eapply drains_trans.
    + apply (@drains_one (Push A)); reflexivity.
    + apply (@drains_one (Read A)); reflexivity.
Qed.

(** The forwarder empties [c]. *)
Lemma drain_source (cb : list A) : forall cn cl n so rc,
  drains {| c := Chan.mk cb cn cl; pipe := Chan.mk [] n false;
            forwarder := AtRange A; sentOn := so; received := rc |}
         {| c := Chan.mk [] cn cl; pipe := Chan.mk [] n false;
            forwarder := AtRange A; sentOn := so;
            received := (rc ++ cb)%list |}.
Proof.
  induction cb as [|v cb IH]; intros cn cl n so rc.
  - rewrite app_nil_r. apply drains_refl.
  - eapply drains_trans.
    + apply (@drains_one (Range A)); reflexivity.
    + simpl. eapply drains_trans.
      * now apply deliver_held.
      * replace (rc ++ v :: cb)%list with ((rc ++ [v]) ++ cb)%list
          by now rewrite <- app_assoc.
        apply IH.
Qed.

Lemma everything_arrives n (st : state A) :
  invariant n st ->
  exists st', drains st st'
              /\ received st' = sentOn st /\ sentOn st' = sentOn st
              /\ pending st' = [].
Proof.
  intros [Hh Hc Ho Hr He].
  destruct st as [[cb cn cl] [pb pn pl] f so rc].
  unfold forwarded, pending in *. simpl in *. subst pl so.
  destruct f as [|v|].
  - eexists. split.
    + eapply drains_trans; [apply drain_pipe|apply drain_source].
    + simpl. repeat split; list_eq.
  - eexists. split.
    + eapply drains_trans; [apply drain_pipe|].
      eapply drains_trans; [now apply deliver_held|apply drain_source].
    + simpl. repeat split; list_eq.
  - destruct (He eq_refl) as [Hb _]. subst cb.
    eexists. split; [apply drain_pipe|].
    simpl. repeat split; list_eq.
Qed.

(** C9.  The channel returned by [pipeOutput(c)] has the capacity of
    [c].  Whatever the goroutines do afterwards, the values sent on [c]
    are, in this order, those already put on the returned channel
    followed by those still held by the forwarder or buffered in [c]:
    none is lost, repeated or reordered.  And whenever the forwarder and
    the reader run, every value sent on [c] reaches the reader. *)
Theorem pipeOutput_forwards_in_order
        (ch : Chan.t A) (es : list (event A)) (st : state A) :
  happenAll es (pipeOutput ch) = Some st ->
  Chan.cap (pipe (pipeOutput ch)) = Chan.cap ch
  /\ Chan.cap (pipe st) = Chan.cap ch
  /\ sentOn st = (forwarded st ++ pending st)%list
  /\ exists st', drains st st'
                 /\ received st' = sentOn st /\ sentOn st' = sentOn st
                 /\ pending st' = [].
Proof.
  intros Hrun.
  assert (Hi : invariant (Chan.cap ch) st)
    by (eapply invariant_run; [apply invariant_init|exact Hrun]).
  split; [reflexivity|]. split; [apply Hi|]. split; [apply Hi|].
  eapply everything_arrives; eauto.
Qed.

End Forwarding.

Lemma pipeOutput_forwards_in_order_witness :
  exists st,
    happenAll [Send 1; Send 2; Range nat; Push nat; Send 3; Read nat]
      (pipeOutput (Chan.make nat 2)) = Some st
    /\ Chan.cap (pipe st) = 2
    /\ sentOn st = (forwarded st ++ pending st)%list
    /\ sentOn st = [1; 2; 3]
    /\ forwarded st = [1].
Proof.
  eexists. split; [cbv; reflexivity|].
  destruct (@pipeOutput_forwards_in_order nat (Chan.make nat 2)
              [Send 1; Send 2; Range nat; Push nat; Send 3; Read nat]
              _ eq_refl)
    as (_ & Hc & Hh & _).
  split; [exact Hc|]. split; [exact Hh|]. split; reflexivity.
Defined.

End PipeFacts.

(** ** The request goroutine *)

Module ServerFacts.
Import Server.

Section WithCollaborators.

Context {ext : Collaborators}.
Variable s : server.

Lemma skipn_own_length (A : Type) (l l' : list A) :
  skipn (List.length l) (l ++ l')%list = l'.
Proof. induction l; simpl; auto. Qed.

Lemma emitted_same sh : emitted sh sh = [].
Proof. unfold emitted. apply skipn_all. Qed.

Lemma appended_same sh : appended sh sh = [].
Proof. unfold appended. apply skipn_all. Qed.

Lemma emitted_addLogs sh l : emitted sh (addLogs sh l) = [].
Proof. unfold emitted. simpl. apply skipn_all. Qed.

Lemma appended_addLogs sh l : appended sh (addLogs sh l) = l.
Proof. unfold appended. simpl. apply skipn_own_length. Qed.

Lemma appended_setResc sh c : appended sh (setResc sh c) = [].
Proof. unfold appended. simpl. apply skipn_all. Qed.

Lemma emitted_send sh o c :
  Chan.send (resc sh) o = Chan.SendOk c -> emitted sh (setResc sh c) = [o].
Proof.
  intros H. apply ChanFacts.send_ok in H. destruct H as (_ & _ & ->).
  unfold emitted. simpl. apply skipn_own_length.
Qed.

Lemma extend_same t sh : extend t sh sh = t.
Proof.
  destruct t. unfold extend. simpl.
  now rewrite emitted_same, appended_same, !app_nil_r.
Qed.

Lemma extend_addLogs t sh l :
  extend t sh (addLogs sh l)
  = {| outputs := outputs t; entries := (entries t ++ l)%list |}.
Proof.
  unfold extend. now rewrite emitted_addLogs, appended_addLogs, app_nil_r.
Qed.

Lemma extend_send t sh o c :
  Chan.send (resc sh) o = Chan.SendOk c ->
  extend t sh (setResc sh c)
  = {| outputs := (outputs t ++ [o])%list; entries := entries t |}.
Proof.
  intros H. unfold extend.
  now rewrite (emitted_send _ _ H), appended_setResc, app_nil_r.
Qed.

(** The processor is started only when nothing was logged. *)
Lemma dispatch_launched sch m l st :
  dispatch s sch m = (l, Launched st) ->
  l = []
  /\ st = withContext (newState s sch m)
            (WithTimeout Background (timeout s))
  /\ hasCallback (getAction m) = true.
Proof.
  unfold dispatch. destruct (hasCallback (getAction m)); simpl.
  - destruct (match getPayload m with
              | Some v => UnpackCommand v zeroCommand
              | None => None
              end); intros H; inversion H; auto.
  - discriminate.
Qed.

Ltac fire_cases :=
  repeat match goal with
    | H : (let (_, _) := ?x in _) = Some _ |- _ =>
        destruct x as [? []] eqn:?
    | H : match processor ?s ?st with _ => _ end = Some _ |- _ =>
        destruct (processor s st) eqn:?; try discriminate
    | H : match Chan.send ?c ?o with _ => _ end = Some _ |- _ =>
        destruct (Chan.send c o) eqn:?; try discriminate
    | H : (if ?b then _ else _) = Some _ |- _ =>
        destruct b eqn:?; try discriminate
    | H : Some _ = Some _ |- _ => inversion H; subst; clear H
    end.

Lemma situation_step m mv sh sh' r r' t :
  situation s m r t -> fire s mv sh r = Some (sh', r') ->
  situation s m r' (extend t sh sh').
Proof.
  intros Hs Hf.
  destruct Hs as [|sch l o Hd|sch l o Hd|sch st p d Hd Hp
                  |sch st o d Hd Ho|sch st o Hd Ho|sch st p Hd Hp];
    destruct mv; simpl in Hf; try discriminate;
    try (inversion Hp; subst; simpl in Hf; try discriminate);
    unfold sinkSend, returnDeferred in Hf; simpl in Hf;
    fire_cases;
    rewrite ?extend_same, ?extend_addLogs;
    try (erewrite extend_send by eassumption);
    unfold setPc, setProc; simpl;
    try match goal with
      | H : dispatch _ _ _ = (_, Launched _) |- _ =>
          pose proof (proj1 (dispatch_launched _ _ H)); subst
      end;
    change (Some (Chan.make requestOutput 0)) with openSink;
    change (Some (Chan.mk (@nil requestOutput) 0 true)) with closedSink;
    econstructor; eauto using handlerAt.
Qed.

Lemma situation_play m ts : forall sh r t sh' r' t',
  situation s m r t -> play s ts sh r t = Some (sh', r', t') ->
  situation s m r' t'.
Proof.
  induction ts as [|[mv|sh1] ts IH]; simpl; intros sh r t sh' r' t' Hs Hp.
  - now inversion Hp; subst.
  - destruct (fire s mv sh r) as [[sh2 r2]|] eqn:Hf; [|discriminate].
    eapply IH; [|exact Hp]. eapply situation_step; eauto.
  - eapply IH; eauto.
Qed.

Lemma situation_run m ts sh sh' r' t' :
  run s ts sh m = Some (sh', r', t') -> situation s m r' t'.
Proof. apply situation_play. constructor. Qed.

Lemma timedOut_step m mv sh sh' r r' t :
  timedOutAt s m r t -> fire s mv sh r = Some (sh', r') ->
  timedOutAt s m r' (extend t sh sh') /\ sh' = sh.
Proof.
  intros (sch & st & Hd & Hp & Hm & Hpc & Ho & ->) Hf.
  destruct r as [m0 p0 pr oc cd]. simpl in *. subst m0 p0 oc.
  destruct mv; simpl in Hf; try discriminate;
    inversion Hp; subst; simpl in Hf; try discriminate;
    unfold sinkSend in Hf; simpl in Hf; fire_cases;
    rewrite extend_same; (split; [|reflexivity]);
    exists sch, st; simpl; repeat split; eauto using handlerAt.
Qed.

Lemma timedOut_play m ts : forall sh r t sh' r' t',
  timedOutAt s m r t -> play s ts sh r t = Some (sh', r', t') ->
  timedOutAt s m r' t'.
Proof.
  induction ts as [|[mv|sh1] ts IH]; simpl; intros sh r t sh' r' t' Hs Hp.
  - now inversion Hp; subst.
  - destruct (fire s mv sh r) as [[sh2 r2]|] eqn:Hf; [|discriminate].
    eapply IH; [|exact Hp]. eapply timedOut_step; eauto.
  - eapply IH; eauto.
Qed.

Lemma timeout_fired m sh sh' r r' t :
  situation s m r t -> fire s TimeOut sh r = Some (sh', r') ->
  timedOutAt s m r' (extend t sh sh')
  /\ sh' = addLogs sh [timedOut s (requestLogger m)].
Proof.
  intros Hs Hf.
  destruct Hs as [|sch l o Hd|sch l o Hd|sch st p d Hd Hp
                  |sch st o d Hd Ho|sch st o Hd Ho|sch st p Hd Hp];
    simpl in Hf; try discriminate.
  destruct d; [|discriminate].
  unfold returnDeferred in Hf. simpl in Hf.
  inversion Hf; subst; clear Hf. rewrite extend_addLogs. simpl.
  split; [|reflexivity].
  exists sch, st. simpl. repeat split; auto.
  inversion Hp; subst; eauto using handlerAt.
Qed.

Lemma timeout_reached m ts : forall sh r t sh' r' t',
  situation s m r t -> play s ts sh r t = Some (sh', r', t') ->
  In (Own TimeOut) ts -> timedOutAt s m r' t'.
Proof.
  induction ts as [|[mv|sh1] ts IH]; simpl;
    intros sh r t sh' r' t' Hs Hp Hin.
  - contradiction.
  - destruct (fire s mv sh r) as [[sh2 r2]|] eqn:Hf; [|discriminate].
    destruct Hin as [Heq|Hin].
    + inversion Heq; subst mv.
      eapply timedOut_play; [|exact Hp].
      eapply timeout_fired; eauto.
    + eapply IH; [|exact Hp|exact Hin]. eapply situation_step; eauto.
  - destruct Hin as [Heq|Hin]; [discriminate|]. eapply IH; eauto.
Qed.

(** *** The reactor's answer to an output *)

Lemma createErrorRespose_unfold rid message :
  createErrorRespose rid message
  = match Pack (errorReply message) with
    | Ok data => Ok [rid; emptyFrame; data]
    | Err e => Err e
    end.
Proof. reflexivity. Qed.

Lemma error_output_answered socket o failure data :
  err o = Some failure ->
  Pack (errorReply failure) = Ok data ->
  socket [id (ostate o); emptyFrame; data] = Sent ->
  answers socket o [id (ostate o); emptyFrame; data].
Proof.
  intros He Hp Hs. unfold answers, onOutput.
  rewrite He, createErrorRespose_unfold, Hp.
  unfold sendResponse. now rewrite Hs.
Qed.

Lemma reply_output_answered socket o :
  err o = None -> socket (response o) = Sent ->
  answers socket o (response o).
Proof.
  intros He Hs. unfold answers, onOutput. rewrite He.
  unfold sendResponse. now rewrite Hs.
Qed.

Lemma invalidAction_mentions a :
  Fmt.mentions (invalidAction s a) (title s)
  /\ Fmt.mentions (invalidAction s a) a.
Proof.
  unfold invalidAction. split.
  - apply FmtFacts.mentions_here.
  - do 3 apply FmtFacts.mentions_after. apply FmtFacts.mentions_here.
Qed.

Lemma invalidPayload_mentions a :
  Fmt.mentions (invalidPayload s a) (title s)
  /\ Fmt.mentions (invalidPayload s a) a.
Proof.
  unfold invalidPayload. split.
  - apply FmtFacts.mentions_here.
  - do 3 apply FmtFacts.mentions_after. apply FmtFacts.mentions_here.
Qed.

Lemma timedOut_mentions lg :
  lvl (timedOut s lg) = Warning
  /\ req (timedOut s lg) = Some (tag lg)
  /\ Fmt.mentions (text (timedOut s lg)) (Fmt.dec (timeout s))
  /\ Fmt.mentions (text (timedOut s lg)) (Fmt.dec Getpid).
Proof.
  unfold timedOut, logRequest. cbn [lvl req text]. repeat split.
  - apply FmtFacts.mentions_here.
  - do 2 apply FmtFacts.mentions_after. apply FmtFacts.mentions_last.
Qed.

(** *** Requests that are refused before the handler *)

Lemma dispatch_unknown sch m :
  hasCallback (getAction m) = false ->
  dispatch s sch m
  = ([], Rejected (failed (newState s sch m)
                     (invalidAction s (getAction m)))).
Proof. intros H. unfold dispatch. now rewrite H. Qed.

Lemma dispatch_undecodable sch m v e :
  hasCallback (getAction m) = true ->
  getPayload m = Some v -> UnpackCommand v zeroCommand = Some e ->
  dispatch s sch m
  = ([logGlobal Critical ("Failed to read payload: " ++ e)],
     Rejected (failed (newState s sch m)
                 (invalidPayload s (getAction m)))).
Proof. intros H1 H2 H3. unfold dispatch. simpl. now rewrite H1, H2, H3. Qed.

(** A request whose dispatch ends in [Rejected] whatever the schemas:
    the processor is never started, at most the one error output is
    sent, it has been sent once the goroutine has returned, and while
    [resc] has room the goroutine's own moves take it to its return. *)
Lemma rejected_run m l (mk : option Mapping -> requestOutput)
      ts sh sh' r' t' :
  (forall sch, dispatch s sch m = (l, Rejected (mk sch))) ->
  run s ts sh m = Some (sh', r', t') ->
  exists sch,
    proc r' = NotStarted
    /\ (entries t' = [] \/ entries t' = l)
    /\ (outputs t' = [] \/ outputs t' = [mk sch])
    /\ (pc r' = Returned -> outputs t' = [mk sch] /\ entries t' = l)
    /\ (hasRoom (resc sh') ->
        exists ms x, play s (map Own ms) sh' r' t' = Some x
                     /\ pc (snd (fst x)) = Returned).
Proof.
  intros Hd Hr. apply situation_run in Hr.
  destruct Hr as [|sch l0 o Hd0|sch l0 o Hd0|sch st p d Hd0 Hp
                  |sch st o d Hd0 Ho|sch st o Hd0 Ho|sch st p Hd0 Hp];
    try (rewrite Hd in Hd0; discriminate);
    try (rewrite Hd in Hd0; inversion Hd0; subst l0 o; clear Hd0).
  - exists (schemasVar sh'). simpl. repeat split; auto; try discriminate.
    intros [Hopen Hlen]. exists [Begin; EmitError].
    unfold play, fire. simpl. rewrite Hd. simpl.
    rewrite (ChanFacts.send_room _ _ Hopen Hlen). simpl. eauto.
  - exists sch. simpl. repeat split; auto; try discriminate.
    intros [Hopen Hlen]. exists [EmitError].
    unfold play, fire. simpl.
    rewrite (ChanFacts.send_room _ _ Hopen Hlen). simpl. eauto.
  - exists sch. simpl. repeat split; auto.
    intros _. exists []. simpl. eauto.
Qed.

(** X26.  A request goroutine started for a message that names an action
    the component has no callback for: the processor is never started; the
    goroutine sends at most one output on [resc], has sent exactly that
    one when it has returned, and returns by its own moves while [resc]
    has room.  The output carries the error "Invalid action for component
    <title>: <action>", and the reactor answers it with the one message
    [rid, empty, packed error reply] when the codec and the socket
    work. *)
Theorem unknown_action_is_rejected m ts sh sh' r' t' :
  hasCallback (getAction m) = false ->
  run s ts sh m = Some (sh', r', t') ->
  exists sch,
    let o := failed (newState s sch m) (invalidAction s (getAction m)) in
    proc r' = NotStarted
    /\ (outputs t' = [] \/ outputs t' = [o])
    /\ (pc r' = Returned -> outputs t' = [o])
    /\ (hasRoom (resc sh') ->
        exists ms x, play s (map Own ms) sh' r' t' = Some x
                     /\ pc (snd (fst x)) = Returned)
    /\ Fmt.mentions (invalidAction s (getAction m)) (title s)
    /\ Fmt.mentions (invalidAction s (getAction m)) (getAction m)
    /\ forall socket data,
         Pack (errorReply (invalidAction s (getAction m))) = Ok data ->
         socket [getRequestID m; emptyFrame; data] = Sent ->
         answers socket o [getRequestID m; emptyFrame; data].
Proof.
  intros Hc Hr.
  destruct (@rejected_run m []
              (fun sch => failed (newState s sch m)
                            (invalidAction s (getAction m)))
              ts sh sh' r' t'
              (fun sch => @dispatch_unknown sch m Hc) Hr)
    as (sch & Hp & _ & Ho & Hret & Hgo).
  exists sch. cbv zeta. repeat split; auto.
  - intros H. now apply Hret.
  - apply invalidAction_mentions.
  - apply invalidAction_mentions.
  - intros socket data Hpack Hsock.
    apply (@error_output_answered socket
             (failed (newState s sch m) (invalidAction s (getAction m)))
             (invalidAction s (getAction m)) data); auto.
Qed.

(** X27.  A request goroutine started for a message that names a
    registered action and carries a payload that the codec refuses: the
    processor
    is never started; the failure is logged once; the goroutine sends
    at most one output on [resc], exactly that one when it has
    returned, and returns by its own moves while [resc] has room.  The
    output carries an error, which the reactor answers with a packed
    error reply. *)
Theorem undecodable_payload_is_rejected m v e ts sh sh' r' t' :
  hasCallback (getAction m) = true ->
  getPayload m = Some v ->
  UnpackCommand v zeroCommand = Some e ->
  run s ts sh m = Some (sh', r', t') ->
  exists sch,
    let o := failed (newState s sch m) (invalidPayload s (getAction m)) in
    let l := [logGlobal Critical ("Failed to read payload: " ++ e)] in
    proc r' = NotStarted
    /\ (entries t' = [] \/ entries t' = l)
    /\ (outputs t' = [] \/ outputs t' = [o])
    /\ (pc r' = Returned -> outputs t' = [o] /\ entries t' = l)
    /\ (hasRoom (resc sh') ->
        exists ms x, play s (map Own ms) sh' r' t' = Some x
                     /\ pc (snd (fst x)) = Returned)
    /\ err o = Some (invalidPayload s (getAction m))
    /\ forall socket data,
         Pack (errorReply (invalidPayload s (getAction m))) = Ok data ->
         socket [getRequestID m; emptyFrame; data] = Sent ->
         answers socket o [getRequestID m; emptyFrame; data].
Proof.
  intros Hc Hv He Hr.
  destruct (@rejected_run m _
              (fun sch => failed (newState s sch m)
                            (invalidPayload s (getAction m)))
              ts sh sh' r' t'
              (fun sch => @dispatch_undecodable sch m v e Hc Hv He) Hr)
    as (sch & Hp & Hl & Ho & Hret & Hgo).
  exists sch. cbv zeta. repeat split; auto.
  - now apply Hret.
  - now apply Hret.
  - intros socket data Hpack Hsock.
    apply (@error_output_answered socket
             (failed (newState s sch m) (invalidPayload s (getAction m)))
             (invalidPayload s (getAction m)) data); auto.
Qed.

(** *** The deadline *)

(** What the branch of [ctx.Done()] does to what is shared: it adds
    the warning to the log and nothing else, so every move another
    request could make before, it can make after, with the same effect
    on [resc]. *)
Lemma timeout_leaves_queue sh r sh1 r1 :
  fire s TimeOut sh r = Some (sh1, r1) ->
  sh1 = addLogs sh [timedOut s (requestLogger (msg r))].
Proof.
  unfold fire. destruct (pc r); try discriminate.
  destruct (proc r), (ctxDone r); try discriminate;
    destruct (returnDeferred r); try discriminate;
    intros H; now inversion H.
Qed.

Lemma fire_addLogs mv sh l r sh2 r2 :
  fire s mv sh r = Some (sh2, r2) ->
  exists sh2', fire s mv (addLogs sh l) r = Some (sh2', r2)
               /\ resc sh2' = resc sh2
               /\ schemasVar sh2' = schemasVar sh2.
Proof.
  unfold fire.
  destruct mv, (pc r), (proc r); try discriminate; simpl;
    try (destruct (dispatch s (schemasVar sh) (msg r)) as [? []]);
    try (destruct (Chan.send (resc sh) o); try discriminate);
    try (destruct (Chan.send (resc sh) o0); try discriminate);
    try (destruct (processor s st); try discriminate);
    try (destruct (sinkSend r o); try discriminate);
    try (destruct (sinkSend r o0); try discriminate);
    try (destruct (ctxDone r); try discriminate);
    try (destruct (returnDeferred r); try discriminate);
    intros H; inversion H; subst; eexists; split;
    try reflexivity; auto.
Qed.

(** A request waiting in its select can always take the branch of
    [ctx.Done()]: the timer fires if it has not yet, and the branch is
    open. *)
Lemma select_can_time_out m sh r t :
  situation s m r t -> pc r = AtSelect ->
  exists ms x, play s (map Own ms) sh r t = Some x
               /\ In TimeOut ms /\ pc (snd (fst x)) = Returned.
Proof.
  intros Hs Hpc.
  destruct Hs as [|sch l o Hd|sch l o Hd|sch st p d Hd Hp
                  |sch st o d Hd Ho|sch st o Hd Ho|sch st p Hd Hp];
    try discriminate.
  destruct d.
  - exists [TimeOut]. simpl. eexists. split; [reflexivity|]. simpl. auto.
  - exists [DeadlinePasses; TimeOut]. simpl. eexists.
    split; [reflexivity|]. simpl. auto.
Qed.

(** X28.  In every run in which a request goroutine takes the branch of
    [ctx.Done()], however the run goes on: the request never sends an
    output on [resc]; its only log call is the one warning, which
    prints the int64 behind the timeout and the process id; its
    goroutine has returned.  The branch changes nothing that is shared
    but the log: whatever another request could do before, it can do
    after, with the same effect on [resc]. *)
Theorem timed_out_request_is_dropped m ts sh sh' r' t' :
  run s ts sh m = Some (sh', r', t') ->
  In (Own TimeOut) ts ->
  let w := timedOut s (requestLogger m) in
  outputs t' = []
  /\ entries t' = [w]
  /\ lvl w = Warning
  /\ Fmt.mentions (text w) (Fmt.dec (timeout s))
  /\ Fmt.mentions (text w) (Fmt.dec Getpid)
  /\ pc r' = Returned
  /\ forall shA rA shB rB,
       fire s TimeOut shA rA = Some (shB, rB) ->
       resc shB = resc shA
       /\ schemasVar shB = schemasVar shA
       /\ forall mv r2 sh2 r2',
            fire s mv shA r2 = Some (sh2, r2') ->
            exists sh2', fire s mv shB r2 = Some (sh2', r2')
                         /\ resc sh2' = resc sh2.
Proof.
  intros Hr Hin.
  destruct (timeout_reached ts sh (SitEntry s m) Hr Hin)
    as (sch & st & Hd & Hp & Hm & Hpc & Ho & ->).
  cbv zeta.
  destruct (timedOut_mentions (requestLogger m)) as (Hl & _ & Ht & Hpid).
  do 6 (split; [auto; reflexivity|]).
  intros shA rA shB rB Hf.
  apply timeout_leaves_queue in Hf. subst shB.
  do 2 (split; [reflexivity|]).
  intros mv r2 sh2 r2' Hf.
  destruct (@fire_addLogs mv shA [timedOut s (requestLogger (msg rA))]
              r2 sh2 r2' Hf) as (sh2' & Hf' & Hq & _).
  eauto.
Qed.

(** C10.  In every run in which the request takes the branch of
    [ctx.Done()]: the goroutine has returned and [outc] is closed; the
    processor is still running, or at its send, or has returned without
    writing, or has panicked.  A processor that reaches its send finds
    the channel closed: the send panics, no other move is open to it,
    and its output never reaches [resc]. *)
Theorem late_reply_panics m ts sh sh' r' t' :
  run s ts sh m = Some (sh', r', t') ->
  In (Own TimeOut) ts ->
  pc r' = Returned
  /\ outc r' = closedSink
  /\ outputs t' = []
  /\ (exists sch st, dispatch s sch m = ([], Launched st)
                     /\ handlerAt s st true (proc r'))
  /\ (forall st o, proc r' = Executing st -> processor s st = Some o ->
                   fire s HandlerReplies sh' r'
                   = Some (sh', setProc r' (AtReply o)))
  /\ (forall o, proc r' = AtReply o ->
                sinkSend r' o = Chan.SendPanics
                /\ fire s LateSend sh' r' = Some (sh', setProc r' Panicked)
                /\ forall mv x, fire s mv sh' r' = Some x -> mv = LateSend).
Proof.
  intros Hr Hin.
  destruct (timeout_reached ts sh (SitEntry s m) Hr Hin)
    as (sch & st & Hd & Hp & Hm & Hpc & Ho & ->).
  destruct r' as [m0 p0 pr oc cd]. simpl in *. subst m0 p0 oc.
  do 3 (split; [reflexivity|]).
  split; [eauto|]. split.
  - intros st0 o -> Hproc. unfold fire. simpl. now rewrite Hproc.
  - intros o ->. split; [reflexivity|]. split; [reflexivity|].
    intros mv x. destruct mv; simpl; try discriminate; auto.
Qed.

(** *** The handler's reply *)

Lemma replied_play m ts : forall sh r t sh' r' t',
  repliedAt s m r t -> play s ts sh r t = Some (sh', r', t') ->
  repliedAt s m r' t'.
Proof.
  induction ts as [|[mv|sh1] ts IH]; simpl; intros sh r t sh' r' t' Hs Hp.
  - now inversion Hp; subst.
  - destruct Hs as (sch & st & o & _ & _ & Hproc & Hpc & _).
    destruct r as [m0 p0 pr oc cd]. simpl in Hproc, Hpc. subst p0 pr.
    destruct mv; simpl in Hp; discriminate.
  - eapply IH; eauto.
Qed.

Lemma forward_fired m sh sh' r r' t :
  situation s m r t -> fire s Forward sh r = Some (sh', r') ->
  repliedAt s m r' (extend t sh sh').
Proof.
  intros Hs Hf.
  destruct Hs as [|sch l o Hd|sch l o Hd|sch st p d Hd Hp
                  |sch st o d Hd Ho|sch st o Hd Ho|sch st p Hd Hp];
    simpl in Hf; try discriminate.
  unfold returnDeferred in Hf. simpl in Hf.
  destruct (Chan.send (resc sh) o) eqn:E; try discriminate.
  inversion Hf; subst; clear Hf. rewrite (extend_send _ _ _ E).
  exists sch, st, o. simpl. repeat split; auto.
Qed.

(** X17.  When the processor's output is received before the deadline
    is seen, it is the one output the request sends on [resc], nothing is
    logged, and the reactor writes its response to the socket as it
    is. *)
Lemma reply_is_forwarded m ts sh sh' r' t' :
  run s ts sh m = Some (sh', r', t') ->
  In (Own Forward) ts ->
  exists sch st o,
    dispatch s sch m = ([], Launched st)
    /\ processor s st = Some o
    /\ outputs t' = [o] /\ entries t' = [] /\ pc r' = Returned
    /\ forall socket,
         err o = None -> socket (response o) = Sent ->
         answers socket o (response o).
Proof.
  intros Hr Hin.
  assert (H : repliedAt s m r' t').
  { unfold run in Hr. revert Hr Hin.
    generalize (SitEntry s m). generalize (spawn m) noTrace sh.
    induction ts as [|[mv|sh1] ts IH]; simpl; intros r t sh0 Hs Hp Hin.
    - contradiction.
    - destruct (fire s mv sh0 r) as [[sh2 r2]|] eqn:Hf; [|discriminate].
      destruct Hin as [Heq|Hin].
      + inversion Heq; subst mv.
        eapply replied_play; [|exact Hp]. eapply forward_fired; eauto.
      + eapply IH; [|exact Hp|exact Hin]. eapply situation_step; eauto.
    - destruct Hin as [Heq|Hin]; [discriminate|]. eapply IH; eauto. }
  destruct H as (sch & st & o & Hd & Hproc & _ & Hpc & _ & ->).
  exists sch, st, o. simpl. repeat split; auto.
  intros socket He Hs. now apply reply_output_answered.
Qed.

(** C2.  The state with which the processor is started: it carries the
    request id, the action and the context bound to the deadline, and
    its command is the zero value, whatever the payload of the
    message. *)
Theorem handler_state_has_zero_command sch m l st :
  dispatch s sch m = (l, Launched st) ->
  command st = zeroCommand
  /\ context st = Some (WithTimeout Background (timeout s))
  /\ id st = getRequestID m
  /\ action st = getAction m.
Proof.
  intros H. destruct (dispatch_launched _ _ H) as (_ & -> & _).
  repeat split.
Qed.

(** *** The reactor's error reply *)

(** C7.  [createErrorRespose(rid, message)] packs a reply with no
    result and with [message] as the message of its error, and frames
    the packed bytes after [rid] and the empty frame.  When packing
    fails, the handler of the reactor logs the failure, writes nothing
    to the socket and goes on. *)
Theorem error_reply_is_built_or_dropped socket o failure :
  err o = Some failure ->
  setErrorMessage (NewErrorReply ActionResult) failure
  = {| Result := None; ReplyError := Some {| Message := failure |} |}
  /\ match Pack (errorReply failure) with
     | Ok data =>
         createErrorRespose (id (ostate o)) failure
         = Ok [id (ostate o); emptyFrame; data]
         /\ onOutput socket o
            = sendResponse socket (logger (ostate o))
                [id (ostate o); emptyFrame; data]
     | Err e =>
         createErrorRespose (id (ostate o)) failure = Err e
         /\ onOutput socket o
            = {| logged :=
                   [logRequest (logger (ostate o)) Error
                      ("Request failed with error: " ++ failure);
                    logRequest (logger (ostate o)) Error
                      ("Failed to create error response: " ++ e)];
                 wire := []; returned := None |}
     end.
Proof.
  intros He. split; [reflexivity|].
  unfold onOutput. rewrite He, createErrorRespose_unfold.
  destruct (Pack (errorReply failure)); split; reflexivity.
Qed.

(** *** The listener *)

(** Lines 135-140, where the body of the loop runs: a message that
    [check] refuses is logged once, at the critical level, and the loop
    continues; no goroutine is started and nothing is sent on [resc]. *)
Lemma refused_message_is_logged_and_dropped m e sys :
  check m = Some e ->
  handleMessage m sys
  = {| msgc := msgc sys; listener := listener sys;
       common := addLogs (common sys) [logGlobal Critical e];
       requests := requests sys; taken := taken sys |}
  /\ appended (common sys) (common (handleMessage m sys))
     = [logGlobal Critical e]
  /\ emitted (common sys) (common (handleMessage m sys)) = []
  /\ requests (handleMessage m sys) = requests sys.
Proof.
  intros H. unfold handleMessage. rewrite H. simpl.
  repeat split.
  - apply appended_addLogs.
  - apply emitted_addLogs.
Qed.

Lemma fire_msg mv sh r sh' r' :
  fire s mv sh r = Some (sh', r') -> msg r' = msg r.
Proof.
  unfold fire, returnDeferred, setPc, setProc.
  destruct mv, (pc r), (proc r); try discriminate;
    try (destruct (dispatch s (schemasVar sh) (msg r)) as [? []]);
    try (destruct (Chan.send (resc sh) o); try discriminate);
    try (destruct (Chan.send (resc sh) o0); try discriminate);
    try (destruct (processor s st); try discriminate);
    try (destruct (sinkSend r o); try discriminate);
    try (destruct (sinkSend r o0); try discriminate);
    try (destruct (ctxDone r); try discriminate);
    try (destruct (outc r) as [ch|]; try discriminate;
         destruct (Chan.close ch); try discriminate);
    intros H; inversion H; subst; reflexivity.
Qed.

Lemma setNth_Forall (A : Type) (P : A -> Prop) i a : forall l,
  Forall P l -> P a -> Forall P (setNth i a l).
Proof.
  induction i as [|i IH]; intros [|x l] Hl Ha; simpl; auto;
    inversion Hl; subst; constructor; auto.
Qed.

(** Once the listener has left and nothing is under way, nothing ever
    is: no event starts a goroutine or produces an output. *)
Lemma idle_step e sys sys' :
  idle sys -> happen s e sys = Some sys' -> idle sys'.
Proof.
  intros (Hl & Hr & Hb & Ht) Hs. unfold idle.
  destruct e; simpl in Hs.
  - destruct (onSocket r) as [[l [m|]] e]; try discriminate.
    destruct (Chan.send (msgc sys) m); try discriminate.
    inversion Hs; subst; clear Hs. simpl. auto.
  - destruct (Chan.close (msgc sys)); try discriminate.
    inversion Hs; subst; clear Hs. simpl. auto.
  - unfold listen in Hs. rewrite Hl in Hs. discriminate.
  - rewrite Hr in Hs. destruct i; discriminate.
  - unfold Chan.recv in Hs. rewrite Hb in Hs.
    destruct (Chan.closed (resc (common sys))); discriminate.
Qed.

Lemma idle_run es : forall sys sys',
  idle sys -> happenAll s es sys = Some sys' -> idle sys'.
Proof.
  induction es as [|e es IH]; simpl; intros sys sys' Hi Hr.
  - now inversion Hr; subst.
  - destruct (happen s e sys) as [sys1|] eqn:E; [|discriminate].
    eapply IH; [|exact Hr]. eapply idle_step; eauto.
Qed.

(** C1, on the code.  A message arrives on the socket and the listener
    takes it from [msgc]: the listener leaves its loop on the spot.
    Whatever happens in the server afterwards, no request goroutine is
    ever started and no output is ever sent on [resc] or handed to the
    reactor, for this message or any later one. *)
Theorem delivered_message_stops_the_listener m es sys :
  happenAll s (Arrives (Received m) :: Listens :: es)
    (startMessageListener (Chan.make requestMsg 1000)) = Some sys ->
  listener sys = Left
  /\ requests sys = []
  /\ Chan.buf (resc (common sys)) = []
  /\ taken sys = []
  /\ ~ pendingFor m sys.
Proof.
  intros Hr. simpl in Hr.
  assert (Hi : idle sys).
  { eapply idle_run; [|exact Hr]. repeat split. }
  destruct Hi as (Hl & Hq & Hb & Ht). repeat split; auto.
  intros [(r & Hin & _)|(o & Hin & _)].
  - now rewrite Hq in Hin.
  - now rewrite Hb in Hin.
Qed.

(** X14.  In every state the server can reach, the request goroutines
    were all started for the zero value that a receive on the closed
    [msgc] yields: a message that was delivered is never dispatched. *)
Lemma only_the_zero_message_is_dispatched sys :
  reachable s sys -> Forall (fun r => msg r = []) (requests sys).
Proof.
  intros (es & Hr). revert Hr.
  assert (H0 : Forall (fun r : request => msg r = [])
                 (requests (startMessageListener
                              (Chan.make requestMsg 1000))))
    by constructor.
  revert H0. generalize (startMessageListener (Chan.make requestMsg 1000)).
  induction es as [|e es IH]; simpl; intros sys0 H0 Hr.
  - now inversion Hr; subst.
  - destruct (happen s e sys0) as [sys1|] eqn:E; [|discriminate].
    apply (IH sys1); [|exact Hr]. clear IH Hr.
    destruct e; simpl in E.
    + destruct (onSocket r) as [[l [m|]] e]; try discriminate.
      destruct (Chan.send (msgc sys0) m); try discriminate.
      now inversion E; subst.
    + destruct (Chan.close (msgc sys0)); try discriminate.
      now inversion E; subst.
    + unfold listen in E. destruct (listener sys0); try discriminate.
      destruct (Chan.recv (msgc sys0)); try discriminate;
        inversion E; subst; clear E; simpl; auto.
      unfold iteration, handleMessage.
      destruct (check []); simpl; auto.
      apply Forall_app. split; auto.
    + destruct (nth_error (requests sys0) i) as [r|] eqn:En;
        try discriminate.
      destruct (fire s m (common sys0) r) as [[sh r']|] eqn:Ef;
        try discriminate.
      inversion E; subst; clear E. simpl.
      apply setNth_Forall; auto.
      rewrite (fire_msg _ _ _ Ef).
      apply nth_error_In in En.
      rewrite Forall_forall in H0. now apply H0.
    + destruct (Chan.recv (resc (common sys0))); try discriminate.
      now inversion E; subst.
Qed.

(** *** One request inside the server *)

Lemma setNth_other (A : Type) (a : A) j : forall l i,
  i <> j -> nth_error (setNth j a l) i = nth_error l i.
Proof.
  induction j as [|j IH]; intros [|x l] [|i] H; simpl; auto;
    try (now elim H); try (apply IH; congruence).
Qed.

Lemma setNth_same (A : Type) (a b : A) i : forall l,
  nth_error l i = Some b -> nth_error (setNth i a l) i = Some a.
Proof.
  induction i as [|i IH]; intros [|x l] H; simpl in *; try discriminate; auto.
Qed.

(** What an event of the server is for the request at index [i]: a move
    of its own, or a change of what is shared made by the others. *)
Lemma happen_projects e sys sys' i r :
  happen s e sys = Some sys' ->
  nth_error (requests sys) i = Some r ->
  exists r',
    nth_error (requests sys') i = Some r'
    /\ (r' = r
        \/ exists mv, fire s mv (common sys) r = Some (common sys', r')).
Proof.
  intros Hs Hn. destruct e; simpl in Hs.
  - destruct (onSocket r0) as [[l [m|]] e]; try discriminate.
    destruct (Chan.send (msgc sys) m); try discriminate.
    inversion Hs; subst; clear Hs. simpl. eauto.
  - destruct (Chan.close (msgc sys)); try discriminate.
    inversion Hs; subst; clear Hs. simpl. eauto.
  - unfold listen in Hs. destruct (listener sys); try discriminate.
    destruct (Chan.recv (msgc sys)); try discriminate;
      inversion Hs; subst; clear Hs; simpl; eauto.
    unfold iteration, handleMessage. destruct (check []); simpl; eauto.
    exists r. split; auto.
    rewrite nth_error_app1; auto.
    apply nth_error_Some. congruence.
  - destruct (nth_error (requests sys) i0) as [r0|] eqn:En; try discriminate.
    destruct (fire s m (common sys) r0) as [[sh r1]|] eqn:Ef;
      try discriminate.
    inversion Hs; subst; clear Hs. simpl.
    destruct (Nat.eq_dec i i0) as [->|Hne].
    + rewrite Hn in En. inversion En; subst r0.
      exists r1. split; [eapply setNth_same; eauto|]. eauto.
    + exists r. split; [|auto]. rewrite setNth_other; auto.
  - destruct (Chan.recv (resc (common sys))); try discriminate.
    inversion Hs; subst; clear Hs. simpl. eauto.
Qed.

(** Every run of the server, seen from one of its requests, is a run of
    that request among others. *)
Lemma server_run_projects es : forall sys sys' i r t,
  happenAll s es sys = Some sys' ->
  nth_error (requests sys) i = Some r ->
  exists ts r' t',
    nth_error (requests sys') i = Some r'
    /\ play s ts (common sys) r t = Some (common sys', r', t').
Proof.
  induction es as [|e es IH]; simpl; intros sys sys' i r t Hr Hn.
  - inversion Hr; subst. exists [], r, t. auto.
  - destruct (happen s e sys) as [sys1|] eqn:E; [|discriminate].
    destruct (happen_projects _ _ _ E Hn) as (r1 & Hn1 & [->|(mv & Hf)]).
    + destruct (IH sys1 sys' i r t Hr Hn1) as (ts & r' & t' & Hn' & Hp).
      exists (Others (common sys1) :: ts), r', t'. auto.
    + destruct (IH sys1 sys' i r1 (extend t (common sys) (common sys1))
                  Hr Hn1) as (ts & r' & t' & Hn' & Hp).
      exists (Own mv :: ts), r', t'. split; auto.
      simpl. now rewrite Hf.
Qed.

(** X18.  A request sends at most one output on [resc]; when its
    goroutine has returned it has sent exactly one, unless it took the
    branch of [ctx.Done()], in which case it has sent none and logged the
    warning. *)
Lemma one_output_unless_timed_out m ts sh sh' r' t' :
  run s ts sh m = Some (sh', r', t') ->
  List.length (outputs t') <= 1
  /\ (pc r' = Returned ->
      (exists o, outputs t' = [o])
      \/ (outputs t' = []
          /\ entries t' = [timedOut s (requestLogger m)])).
Proof.
  intros Hr. apply situation_run in Hr.
  destruct Hr; simpl; split; auto; try discriminate; eauto.
Qed.

(** *** getAddress *)

Lemma getAddress_generated i :
  IsTCPEnabled i = false -> GetSocket i = "" ->
  getAddress i = Lib.IPC [GetComponent i; GetName i; GetVersion i].
Proof. intros H1 H2. unfold getAddress. now rewrite H1, H2. Qed.

End WithCollaborators.

(** *** The properties at work on the sample server *)

Lemma unknown_action_is_rejected_witness :
  @hasCallback Wire.ext (@getAction Wire.ext Wire.unknownAction) = false
  /\ exists x,
       run Wire.srv Wire.refusing Wire.fresh Wire.unknownAction
       = Some x
       /\ pc (snd (fst x)) = Returned
       /\ proc (snd (fst x)) = NotStarted
       /\ map (@err Wire.ext) (outputs (snd x))
          = [Some (invalidAction Wire.srv "delete")].
Proof.
  split; [reflexivity|].
  eexists. split; [cbv; reflexivity|].
  destruct (@unknown_action_is_rejected Wire.ext Wire.srv
              Wire.unknownAction Wire.refusing Wire.fresh
              _ _ _ eq_refl eq_refl)
    as (sch & Hp & _ & Hret & _).
  split; [reflexivity|]. split; [exact Hp|].
  exact (f_equal (map (@err Wire.ext)) (Hret eq_refl)).
Defined.

Lemma undecodable_payload_is_rejected_witness :
  @hasCallback Wire.ext (@getAction Wire.ext Wire.badPayload) = true
  /\ @getPayload Wire.ext Wire.badPayload = Some "garbage"
  /\ @UnpackCommand Wire.ext "garbage" (@zeroCommand Wire.ext)
     = Some "unexpected end of stream"
  /\ exists x,
       run Wire.srv Wire.refusing Wire.fresh Wire.badPayload = Some x
       /\ pc (snd (fst x)) = Returned
       /\ proc (snd (fst x)) = NotStarted
       /\ map (@err Wire.ext) (outputs (snd x))
          = [Some (invalidPayload Wire.srv "create")]
       /\ entries (snd x)
          = [logGlobal Critical
               "Failed to read payload: unexpected end of stream"].
Proof.
  do 3 (split; [reflexivity|]).
  eexists. split; [cbv; reflexivity|].
  destruct (@undecodable_payload_is_rejected Wire.ext Wire.srv
              Wire.badPayload "garbage" "unexpected end of stream"
              Wire.refusing Wire.fresh _ _ _
              eq_refl eq_refl eq_refl eq_refl)
    as (sch & Hp & _ & _ & Hret & _).
  split; [reflexivity|]. split; [exact Hp|].
  destruct (Hret eq_refl) as [Ho Hl]. split.
  - exact (f_equal (map (@err Wire.ext)) Ho).
  - exact Hl.
Defined.

Lemma timed_out_request_is_dropped_witness :
  In (Own TimeOut) Wire.timingOut
  /\ exists x,
       run Wire.srv Wire.timingOut Wire.fresh Wire.goodRequest = Some x
       /\ outputs (snd x) = []
       /\ map text (entries (snd x))
          = ["Execution timed out after 30000000000ms. PID: 4242"].
Proof.
  assert (Hin : In (Own TimeOut) Wire.timingOut)
    by (right; right; left; reflexivity).
  split; [exact Hin|].
  eexists. split; [cbv; reflexivity|].
  destruct (@timed_out_request_is_dropped Wire.ext Wire.srv
              Wire.goodRequest Wire.timingOut Wire.fresh _ _ _
              eq_refl Hin)
    as (Ho & He & _).
  split; [exact Ho|].
  exact (f_equal (map text) He).
Defined.

Lemma late_reply_panics_witness :
  In (Own TimeOut) Wire.replyingLate
  /\ exists x o,
       run Wire.srv Wire.replyingLate Wire.fresh Wire.goodRequest = Some x
       /\ proc (snd (fst x)) = AtReply o
       /\ sinkSend (snd (fst x)) o = Chan.SendPanics
       /\ fire Wire.srv LateSend (fst (fst x)) (snd (fst x))
          = Some (fst (fst x), setProc (snd (fst x)) Panicked)
       /\ outputs (snd x) = [].
Proof.
  assert (Hin : In (Own TimeOut) Wire.replyingLate)
    by (right; right; left; reflexivity).
  split; [exact Hin|].
  eexists. eexists. split; [cbv; reflexivity|].
  destruct (@late_reply_panics Wire.ext Wire.srv
              Wire.goodRequest Wire.replyingLate Wire.fresh _ _ _
              eq_refl Hin)
    as (_ & _ & Ho & _ & _ & Hlate).
  split; [reflexivity|].
  destruct (Hlate _ eq_refl) as (Hs & Hf & _).
  split; [exact Hs|]. split; [exact Hf|exact Ho].
Defined.

Lemma handler_state_has_zero_command_witness :
  @getPayload Wire.ext Wire.goodRequest = Some "name=Ann"
  /\ @UnpackCommand Wire.ext "name=Ann" (@zeroCommand Wire.ext) = None
  /\ exists st,
       dispatch Wire.srv None Wire.goodRequest = ([], Launched st)
       /\ command st = ""
       /\ id st = "req-3".
Proof.
  do 2 (split; [reflexivity|]).
  eexists. split; [cbv; reflexivity|].
  destruct (@handler_state_has_zero_command Wire.ext Wire.srv None
              Wire.goodRequest [] _ eq_refl)
    as (Hc & _ & Hi & _).
  split; [exact Hc|exact Hi].
Defined.

Lemma error_reply_is_built_or_dropped_witness :
  @err Wire.extBroken Wire.refusal
  = Some (invalidAction Wire.srvBroken "delete")
  /\ @createErrorRespose Wire.extBroken "req-1"
       (invalidAction Wire.srvBroken "delete")
     = Err "unsupported value"
  /\ wire (onOutput Wire.socketUp Wire.refusal) = [].
Proof.
  split; [reflexivity|].
  destruct (@error_reply_is_built_or_dropped Wire.extBroken
              Wire.socketUp Wire.refusal
              (invalidAction Wire.srvBroken "delete") eq_refl)
    as (_ & Hc & Ho).
  split; [exact Hc|].
  exact (f_equal wire Ho).
Defined.

Lemma delivered_message_stops_the_listener_witness :
  exists sys,
    happenAll Wire.srv
      [Arrives (Received Wire.goodRequest); Listens;
       Arrives (Received Wire.unknownAction); CloseMsgc]
      (startMessageListener (Chan.make requestMsg 1000)) = Some sys
    /\ listener sys = Left
    /\ requests sys = []
    /\ Chan.buf (msgc sys) = [Wire.unknownAction]
    /\ taken sys = [].
Proof.
  eexists. split; [cbv; reflexivity|].
  destruct (@delivered_message_stops_the_listener Wire.ext Wire.srv
              Wire.goodRequest
              [Arrives (Received Wire.unknownAction); CloseMsgc] _ eq_refl)
    as (Hl & Hr & _ & Ht & _).
  split; [exact Hl|]. split; [exact Hr|]. split; [reflexivity|exact Ht].
Defined.

End ServerFacts.


(** ** More on the IPC address *)

Module NamesFacts.
Import Lib Names.

#[local] Arguments isAlnum : simpl never.

Lemma replace_outside c s :
  isAlnum c = false ->
  replaceFrom 0 (String c s) = String dash (replaceFrom (matchLen s) s).
Proof. intros H. simpl. now rewrite H. Qed.

Lemma replace_inside c s :
  isAlnum c = true ->
  replaceFrom 0 (String c s) = String c (replaceFrom 0 s).
Proof. intros H. simpl. now rewrite H. Qed.

Lemma skip_outside c s :
  isAlnum c = false ->
  replaceFrom (matchLen (String c s)) (String c s)
  = replaceFrom (matchLen s) s.
Proof. intros H. simpl. now rewrite H. Qed.

Lemma skip_inside c s :
  isAlnum c = true ->
  replaceFrom (matchLen (String c s)) (String c s)
  = String c (replaceFrom 0 s).
Proof. intros H. simpl. now rewrite H. Qed.

Lemma alnum_not_dash c : isAlnum c = true -> isDash c = false.
Proof.
  intros H. unfold isDash.
  destruct (Ascii.eqb_spec c dash) as [->|]; [|reflexivity].
  vm_compute in H. discriminate H.
Qed.

Lemma dash_outside : isAlnum dash = false.
Proof. reflexivity. Qed.

Lemma isDash_eq c : isDash c = true -> c = dash.
Proof. unfold isDash. now destruct (Ascii.eqb_spec c dash). Qed.

Lemma nameChar_inside c : isAlnum c = true -> nameChar c = true.
Proof. unfold nameChar. now intros ->. Qed.

(** What is left after a match was passed over starts with a letter or a
    digit, or is empty. *)
Lemma skip_startsDash s : startsDash (replaceFrom (matchLen s) s) = false.
Proof.
  induction s as [|c s IH]; [reflexivity|].
  destruct (isAlnum c) eqn:Hc.
  - rewrite skip_inside by assumption. simpl. now apply alnum_not_dash.
  - now rewrite skip_outside.
Qed.

Lemma replace_chars s :
  allChars nameChar (replaceFrom 0 s) = true
  /\ allChars nameChar (replaceFrom (matchLen s) s) = true.
Proof.
  induction s as [|c s [IH1 IH2]]; [split; reflexivity|].
  destruct (isAlnum c) eqn:Hc.
  - rewrite replace_inside, skip_inside by assumption. simpl.
    now rewrite IH1, nameChar_inside.
  - rewrite replace_outside, skip_outside by assumption. simpl.
    now rewrite IH2.
Qed.

Lemma noDoubleDash_cons c s :
  isDash c && startsDash s = false -> noDoubleDash s = true ->
  noDoubleDash (String c s) = true.
Proof.
  intros H1 H2. destruct s as [|d s]; [reflexivity|].
  simpl in *. now rewrite H1, H2.
Qed.

Lemma replace_single s :
  noDoubleDash (replaceFrom 0 s) = true
  /\ noDoubleDash (replaceFrom (matchLen s) s) = true.
Proof.
  induction s as [|c s [IH1 IH2]]; [split; reflexivity|].
  destruct (isAlnum c) eqn:Hc.
  - rewrite replace_inside, skip_inside by assumption.
    assert (H : noDoubleDash (String c (replaceFrom 0 s)) = true).
    { apply noDoubleDash_cons; auto. now rewrite alnum_not_dash. }
    auto.
  - rewrite replace_outside, skip_outside by assumption. split; auto.
    apply noDoubleDash_cons; auto.
    rewrite skip_startsDash. apply andb_false_r.
Qed.

Lemma replace_clean s : clean (ReplaceAllString s) = true.
Proof.
  unfold clean, ReplaceAllString.
  now rewrite (proj1 (replace_chars s)), (proj1 (replace_single s)).
Qed.

Lemma noDoubleDash_tail c s :
  noDoubleDash (String c s) = true -> noDoubleDash s = true.
Proof.
  destruct s as [|d s]; [reflexivity|]. simpl.
  intros H. apply andb_prop in H. apply H.
Qed.

Lemma clean_fixed s :
  clean s = true ->
  replaceFrom 0 s = s
  /\ (startsDash s = false -> replaceFrom (matchLen s) s = s).
Proof.
  unfold clean. induction s as [|c s IH]; [split; reflexivity|].
  intros H. apply andb_prop in H. destruct H as [Hch Hdd].
  simpl in Hch. apply andb_prop in Hch. destruct Hch as [Hc Hch].
  pose proof (noDoubleDash_tail _ _ Hdd) as Hdd'.
  destruct IH as [IH1 IH2]; [now rewrite Hch, Hdd'|].
  destruct (isAlnum c) eqn:Ha.
  - rewrite replace_inside, skip_inside by assumption.
    rewrite IH1. auto.
  - unfold nameChar in Hc. rewrite Ha in Hc. simpl in Hc.
    pose proof (isDash_eq _ Hc) as ->.
    assert (Hs : startsDash s = false).
    { destruct s as [|d s]; [reflexivity|]. simpl in Hdd.
      apply andb_prop in Hdd. destruct Hdd as [Hn _].
      simpl. destruct (isDash d); [discriminate Hn|reflexivity]. }
    rewrite replace_outside by assumption. rewrite (IH2 Hs). split; auto.
    simpl. discriminate.
Qed.

Lemma replace_keep s :
  keep isAlnum (replaceFrom 0 s) = keep isAlnum s
  /\ keep isAlnum (replaceFrom (matchLen s) s) = keep isAlnum s.
Proof.
  induction s as [|c s [IH1 IH2]]; [split; reflexivity|].
  destruct (isAlnum c) eqn:Hc.
  - rewrite replace_inside, skip_inside by assumption. simpl.
    now rewrite Hc, IH1.
  - rewrite replace_outside, skip_outside by assumption. simpl.
    now rewrite Hc, IH2.
Qed.

Lemma replace_length s :
  String.length (replaceFrom 0 s) <= String.length s
  /\ String.length (replaceFrom (matchLen s) s) <= String.length s.
Proof.
  induction s as [|c s [IH1 IH2]]; [split; simpl; lia|].
  destruct (isAlnum c) eqn:Hc.
  - rewrite replace_inside, skip_inside by assumption. simpl. lia.
  - rewrite replace_outside, skip_outside by assumption. simpl. lia.
Qed.

Lemma length_append (a b : string) :
  String.length (a ++ b) = String.length a + String.length b.
Proof. induction a; simpl; auto. Qed.

Lemma Join_cons a b rest :
  Join (a :: b :: rest) = a ++ "-" ++ Join (b :: rest).
Proof. reflexivity. Qed.

(** X1.  The name that [IPC] puts after its tag holds letters, digits and
    dashes only, and never two dashes in a row. *)
Theorem IPC_name_is_clean (args : list string) :
  exists name,
    IPC args = tag ++ name
    /\ allChars nameChar name = true
    /\ noDoubleDash name = true.
Proof.
  exists (ReplaceAllString (Join args)). split; [reflexivity|].
  pose proof (replace_clean (Join args)) as H.
  unfold clean in H. now apply andb_prop in H.
Qed.

(** X2.  [ReplaceAllString] leaves a string as it is exactly when the
    string holds letters, digits and single dashes only; so replacing
    twice is replacing once, and an address built from a generated name is
    that same address. *)
Theorem ReplaceAllString_fixed_on_clean (s : string) (args : list string) :
  (ReplaceAllString s = s <-> clean s = true)
  /\ ReplaceAllString (ReplaceAllString s) = ReplaceAllString s
  /\ IPC [ReplaceAllString (Join args)] = IPC args.
Proof.
  assert (Hidem : forall t,
             ReplaceAllString (ReplaceAllString t) = ReplaceAllString t).
  { intros t. apply (clean_fixed _ (replace_clean t)). }
  split; [split|split].
  - intros H. rewrite <- H. apply replace_clean.
  - intros H. apply (clean_fixed _ H).
  - apply Hidem.
  - unfold IPC.
    change (Join [ReplaceAllString (Join args)])
      with (ReplaceAllString (Join args)).
    now rewrite Hidem.
Qed.

(** X3.  [IPC] keeps every letter and digit of the joined arguments, in
    their order; only what lies between them changes. *)
Theorem IPC_keeps_letters_and_digits (args : list string) :
  keep isAlnum (ReplaceAllString (Join args)) = keep isAlnum (Join args).
Proof. apply replace_keep. Qed.

(** X4.  The address is never longer than the tag and the joined
    arguments together. *)
Theorem IPC_length_bound (args : list string) :
  String.length (IPC args) <= 16 + String.length (Join args).
Proof.
  unfold IPC. rewrite length_append.
  pose proof (proj1 (replace_length (Join args))) as H.
  unfold ReplaceAllString. simpl String.length at 1. lia.
Qed.

(** X5.  The address does not tell where one argument ends and the next
    begins: two arguments give the address of the one argument made of
    both with a dash between. *)
Theorem IPC_forgets_argument_bounds (a b : string) (rest : list string) :
  IPC (a :: b :: rest) = IPC ((a ++ "-" ++ b) :: rest).
Proof.
  unfold IPC. f_equal. f_equal.
  destruct rest as [|c rest].
  - reflexivity.
  - rewrite !Join_cons.
    now rewrite !FmtFacts.append_assoc.
Qed.

End NamesFacts.

(** ** The start of the server *)

Module StartFacts.
Import Server Start.

Ltac start_cases env i :=
  unfold start, attempt, setupSucceeds, reports;
  destruct (newContext env) eqn:?;
  [|destruct (newSocket env) eqn:?;
    [|destruct (setLinger env 0) eqn:?;
      [|destruct (setRcvhwm env 1000) eqn:?;
        [|destruct (bind env (getAddress i)) eqn:?]]]];
  cbn [emit defer fst snd app].

Ltac in_calls :=
  cbn [In]; intuition (try discriminate; try congruence).

(** X24.  [start] returns an error exactly when creating the context or
    the socket, setting one of the two socket options, or binding the
    address fails; the error it returns carries the text of the failing
    call's error.  The reactor runs exactly when none of them fails, and
    [start] then returns no error, whatever made the reactor stop. *)
Theorem start_fails_only_during_setup (env : zmq) (i : Input) :
  (snd (start env i) = None <-> setupSucceeds env i)
  /\ (In RunReactor (fst (start env i)) <-> snd (start env i) = None)
  /\ (forall msg, snd (start env i) = Some msg ->
                  exists e, reports env i e /\ Fmt.mentions msg e).
Proof.
  start_cases env i; (split; [|split]); try (now in_calls);
    intros msg Hm;
    match type of Hm with
    | Some ?t = _ => assert (Ht : msg = t) by congruence
    end;
    rewrite Ht; clear Hm Ht;
    eexists; (split; [eauto 6|]).
  - exists "", "". now rewrite FmtFacts.append_nil_r.
  - apply FmtFacts.mentions_last.
  - apply FmtFacts.mentions_last.
  - apply FmtFacts.mentions_last.
  - unfold bindFailed. do 4 apply FmtFacts.mentions_after.
    apply FmtFacts.mentions_last.
Qed.

(** X25.  [start] closes the socket exactly when it created one, once,
    as its last call.  It unbinds only the address it bound, and only
    when the binding succeeded.  When everything succeeded it ends by
    logging that the component stopped, closing [msgc], unbinding the
    address and closing the socket, in this order. *)
Theorem start_releases_what_it_acquired (env : zmq) (i : Input) :
  let calls := fst (start env i) in
  (In CloseSocket calls <-> newContext env = None /\ newSocket env = None)
  /\ (In CloseSocket calls ->
      exists before, calls = (before ++ [CloseSocket])%list
                     /\ ~ In CloseSocket before)
  /\ (forall a, In (Unbind a) calls <->
                a = getAddress i /\ setupSucceeds env i)
  /\ (forall a, In (Bind a) calls -> a = getAddress i)
  /\ (setupSucceeds env i ->
      exists before,
        calls = (before ++ [Log Info "Component stopped"; CloseMsgc;
                            Unbind (getAddress i); CloseSocket])%list).
Proof.
  cbv zeta.
  start_cases env i; (split; [|split; [|split; [|split]]]);
    try (intros a; in_calls); try in_calls.
  all: try (exfalso; cbn [In] in *; now intuition discriminate).
  all: try match goal with
         | |- exists b, ?l = (b ++ [CloseSocket])%list /\ _ =>
             exists (removelast l); split;
             [reflexivity|cbn [removelast In]; now intuition discriminate]
         end.
  match goal with
  | |- exists b, ?l = _ => exists (firstn 13 l); reflexivity
  end.
Qed.

Lemma start_fails_only_during_setup_example :
  snd (start addressTaken Wire.sampleInput)
  = Some (bindFailed "ipc://@kusanagi-service-users-1-0-0"
            "address already in use")
  /\ fst (start addressTaken Wire.sampleInput)
     = [NewContext; WatchSignals; NewSocket; SetLinger 0; SetRcvhwm 1000;
        Log Debug (listening "ipc://@kusanagi-service-users-1-0-0");
        Bind "ipc://@kusanagi-service-users-1-0-0"; CloseSocket].
Proof. split; reflexivity. Qed.

End StartFacts.

(** ** The listening address *)

Module AddressFacts.
Import Server Names.

Lemma keep_append p (a b : string) : keep p (a ++ b) = keep p a ++ keep p b.
Proof.
  induction a as [|c a IH]; [reflexivity|].
  simpl. destruct (p c); simpl; now rewrite IH.
Qed.

(** X6.  The address always names its transport: it starts with "tcp://"
    exactly when TCP is enabled, whatever the socket name is, and with
    "ipc://" otherwise. *)
Theorem getAddress_scheme (i : Input) :
  hasPrefix "tcp://" (getAddress i) = IsTCPEnabled i
  /\ hasPrefix "ipc://" (getAddress i) = negb (IsTCPEnabled i).
Proof.
  unfold getAddress. destruct (IsTCPEnabled i).
  - split; reflexivity.
  - destruct (negb (GetSocket i =? "")%string); split; reflexivity.
Qed.

(** X7.  With TCP disabled and no socket name given, the address is the
    tag of [IPC] followed by a name of letters, digits and single dashes,
    whose letters and digits are those of the component, the name and the
    version, in this order. *)
Theorem getAddress_generated_name (i : Input) :
  IsTCPEnabled i = false -> GetSocket i = "" ->
  exists name,
    getAddress i = tag ++ name
    /\ clean name = true
    /\ keep Lib.isAlnum name
       = keep Lib.isAlnum (GetComponent i ++ GetName i ++ GetVersion i).
Proof.
  intros Ht Hs.
  exists (Lib.ReplaceAllString
            (Lib.Join [GetComponent i; GetName i; GetVersion i])).
  split; [|split].
  - unfold getAddress. now rewrite Ht, Hs.
  - apply NamesFacts.replace_clean.
  - unfold Lib.ReplaceAllString.
    rewrite (proj1 (NamesFacts.replace_keep _)).
    change (Lib.Join [GetComponent i; GetName i; GetVersion i])
      with (GetComponent i ++ "-" ++ GetName i ++ "-" ++ GetVersion i).
    now rewrite !keep_append.
Qed.

Lemma getAddress_generated_name_witness :
  IsTCPEnabled Wire.sampleInput = false
  /\ GetSocket Wire.sampleInput = ""
  /\ exists name,
       getAddress Wire.sampleInput = tag ++ name
       /\ clean name = true
       /\ keep Lib.isAlnum name = "serviceusers100".
Proof.
  split; [reflexivity|]. split; [reflexivity|].
  destruct (getAddress_generated_name Wire.sampleInput eq_refl eq_refl)
    as (name & Ha & Hc & Hk).
  exists name. split; [exact Ha|]. split; [exact Hc|exact Hk].
Defined.

End AddressFacts.

(** ** More on the reactor's handlers *)

Module ReactorFacts.
Import Server Reactor.

Section WithCollaborators.

Context {ext : Collaborators}.
Variable s : server.

(** X8.  Handling one output ends in exactly one of three ways: the one
    reply is written to the socket and nothing is logged; or the socket
    reports termination, nothing is written and that error is returned to
    the reactor; or nothing is written, no error is returned and the
    failure is logged through the request's logger at the error level.
    So only the termination of the socket stops the reactor. *)
Theorem onOutput_ends_one_of_three_ways
        (socket : responseMsg -> sendOutcome) (o : requestOutput) :
  let h := onOutput socket o in
  (exists m, socket m = Sent
             /\ wire h = [m] /\ logged h = [] /\ returned h = None)
  \/ (exists m e, socket m = SendTerminated e
                  /\ wire h = [] /\ logged h = [] /\ returned h = Some e)
  \/ (wire h = [] /\ returned h = None /\ logged h <> []
      /\ Forall (errorOf o) (logged h)).
Proof.
  cbv zeta. unfold onOutput, sendResponse, errorOf.
  destruct (err o) as [failure|].
  - destruct (createErrorRespose (id (ostate o)) failure) as [resp|e].
    + destruct (socket resp) eqn:E; simpl.
      * left. exists resp. auto.
      * right. left. exists resp, e. auto.
      * right. right. repeat split; try discriminate.
        repeat constructor.
    + right. right. simpl. repeat split; try discriminate.
      repeat constructor.
  - destruct (socket (response o)) eqn:E; simpl.
    + left. exists (response o). auto.
    + right. left. exists (response o), e. auto.
    + right. right. repeat split; try discriminate.
      repeat constructor.
Qed.

(** X9.  When an output carries an error, the response it holds plays no
    part: the reactor does the same whatever that response is. *)
Theorem error_output_ignores_response
        (socket : responseMsg -> sendOutcome) (o : requestOutput)
        (r : responseMsg) :
  err o <> None ->
  onOutput socket (withResponse o r) = onOutput socket o.
Proof.
  intros H. unfold onOutput, withResponse. simpl.
  destruct (err o); [reflexivity|now elim H].
Qed.

(** X10.  A read from the socket that fails without the context being
    terminated is logged once, and what was read is sent on [msgc] all
    the same: the socket handler does to [msgc] what it does for a read
    that worked. *)
Theorem failed_read_is_still_queued (m : requestMsg) (e : string)
        (sys sys1 : system) :
  happen s (Arrives (Received m)) sys = Some sys1 ->
  exists sys2,
    happen s (Arrives (RecvFailed m e)) sys = Some sys2
    /\ msgc sys2 = msgc sys1
    /\ Chan.buf (msgc sys2) = (Chan.buf (msgc sys) ++ [m])%list
    /\ logs (common sys2) = (logs (common sys) ++ [failedRead e])%list
    /\ requests sys2 = requests sys
    /\ listener sys2 = listener sys.
Proof.
  simpl. destruct (Chan.send (msgc sys) m) eqn:E; try discriminate.
  intros H. inversion H; subst; clear H.
  apply ChanFacts.send_ok in E. destruct E as (_ & _ & ->).
  eexists. split; [reflexivity|]. simpl. repeat split.
Qed.

End WithCollaborators.

Lemma error_output_ignores_response_witness :
  @err Wire.extBroken Wire.refusal <> None
  /\ onOutput Wire.socketUp (withResponse Wire.refusal ["peer-1"; ""; "x"])
     = onOutput Wire.socketUp Wire.refusal.
Proof.
  assert (H : @err Wire.extBroken Wire.refusal <> None) by discriminate.
  split; [exact H|].
  exact (@error_output_ignores_response Wire.extBroken Wire.socketUp
           Wire.refusal ["peer-1"; ""; "x"] H).
Defined.

Lemma failed_read_is_still_queued_witness :
  exists sys1 sys2,
    happen Wire.srv (Arrives (Received Wire.goodRequest))
      (startMessageListener (Chan.make requestMsg 1000)) = Some sys1
    /\ happen Wire.srv (Arrives (RecvFailed Wire.goodRequest "interrupted"))
         (startMessageListener (Chan.make requestMsg 1000)) = Some sys2
    /\ Chan.buf (msgc sys2) = [Wire.goodRequest]
    /\ logs (common sys2) = [failedRead "interrupted"].
Proof.
  eexists.
  destruct (@failed_read_is_still_queued Wire.ext Wire.srv
              Wire.goodRequest "interrupted"
              (startMessageListener (Chan.make requestMsg 1000)) _ eq_refl)
    as (sys2 & H2 & _ & Hb & Hl & _).
  exists sys2. split; [reflexivity|]. split; [exact H2|].
  split; [exact Hb|exact Hl].
Defined.

End ReactorFacts.

(** ** More on the listener and the running server *)

Module ListenerFacts.
Import Server Reactor.

Section WithCollaborators.

Context {ext : Collaborators}.
Variable s : server.

Lemma setNth_length (A : Type) (a : A) i : forall l,
  List.length (setNth i a l) = List.length l.
Proof.
  induction i as [|i IH]; intros [|x l]; simpl; auto.
Qed.

(** Lines 142-206, where the body of the loop runs on a message that
    passes [check]: one request goroutine is started for it, after those
    already started, whether it carries schemas or not and whether they
    decode or not; nothing is sent on [resc] and at most one entry is
    logged, at the error level; without a schemas frame what is shared
    stays as it is. *)
Lemma accepted_message_is_always_dispatched (m : requestMsg)
        (sys : system) :
  check m = None ->
  requests (handleMessage m sys) = (requests sys ++ [spawn m])%list
  /\ resc (common (handleMessage m sys)) = resc (common sys)
  /\ List.length (appended (common sys) (common (handleMessage m sys))) <= 1
  /\ Forall (fun l => lvl l = Error)
       (appended (common sys) (common (handleMessage m sys)))
  /\ (getSchemas m = None -> common (handleMessage m sys) = common sys).
Proof.
  intros H. unfold handleMessage. rewrite H.
  destruct (getSchemas m) as [v|]; simpl.
  - destruct (UnpackSchemas v (schemasVar (common sys))) as [[e|] m'];
      unfold appended; simpl.
    + rewrite ServerFacts.skipn_own_length. simpl.
      repeat split; auto. discriminate.
    + rewrite skipn_all. simpl. repeat split; auto. discriminate.
  - unfold appended. rewrite skipn_all. simpl. repeat split; auto.
Qed.

(** X11.  Once [msgc] is closed and empty the listener handles the zero
    message at every turn.  When [check] accepts it, every turn starts
    one more request goroutine for the zero message, after those already
    started: [n] turns start [n] goroutines, the listener stays in its
    loop, and [msgc], [resc] and what the reactor has taken are left as
    they are. *)
Theorem closed_msgc_starts_a_goroutine_per_turn (n : nat) (sys : system) :
  listener sys = Listening ->
  Chan.buf (msgc sys) = [] -> Chan.closed (msgc sys) = true ->
  check [] = None ->
  exists sys',
    happenAll s (repeat Listens n) sys = Some sys'
    /\ listener sys' = Listening
    /\ msgc sys' = msgc sys
    /\ requests sys' = (requests sys ++ repeat (spawn []) n)%list
    /\ resc (common sys') = resc (common sys)
    /\ taken sys' = taken sys
    /\ (getSchemas [] = None -> common sys' = common sys).
Proof.
  intros Hl Hb Hc He. revert sys Hl Hb Hc.
  induction n as [|n IH]; intros sys Hl Hb Hc.
  - exists sys. simpl. rewrite app_nil_r. repeat split; auto.
  - simpl. unfold listen, Chan.recv. rewrite Hl, Hb, Hc. unfold iteration.
    destruct (accepted_message_is_always_dispatched [] sys He)
      as (Hq & Hresc & _ & _ & Hsame).
    assert (Hkeep : listener (handleMessage [] sys) = listener sys
                    /\ msgc (handleMessage [] sys) = msgc sys
                    /\ taken (handleMessage [] sys) = taken sys).
    { unfold handleMessage. rewrite He. repeat split. }
    destruct Hkeep as (Hl1 & Hm1 & Ht1).
    destruct (IH (handleMessage [] sys)) as
      (sys' & Hr & Hl' & Hm' & Hq' & Hresc' & Ht' & Hsame');
      try congruence.
    exists sys'. repeat split; auto; try congruence.
    + rewrite Hq', Hq. rewrite <- app_assoc. reflexivity.
    + intros Hn. rewrite Hsame' by exact Hn. now apply Hsame.
Qed.

(** X12.  Once [msgc] is closed and empty the listener never leaves its
    loop: every turn receives the zero message at once and handles it.
    When [check] refuses the zero message, [n] turns log [n] critical
    entries and change nothing else. *)
Theorem closed_msgc_makes_listener_spin (e : string) (n : nat)
        (sys : system) :
  listener sys = Listening ->
  Chan.buf (msgc sys) = [] -> Chan.closed (msgc sys) = true ->
  check [] = Some e ->
  exists sys',
    happenAll s (repeat Listens n) sys = Some sys'
    /\ listener sys' = Listening
    /\ msgc sys' = msgc sys
    /\ requests sys' = requests sys
    /\ resc (common sys') = resc (common sys)
    /\ logs (common sys')
       = (logs (common sys) ++ repeat (logGlobal Critical e) n)%list.
Proof.
  intros Hl Hb Hc He. revert sys Hl Hb Hc.
  induction n as [|n IH]; intros sys Hl Hb Hc.
  - exists sys. simpl. rewrite app_nil_r. repeat split; auto.
  - simpl. unfold listen, Chan.recv. rewrite Hl, Hb, Hc.
    unfold iteration, handleMessage. rewrite He.
    destruct (IH {| msgc := msgc sys; listener := listener sys;
                    common := addLogs (common sys) [logGlobal Critical e];
                    requests := requests sys; taken := taken sys |})
      as (sys' & Hr & Hl' & Hm & Hq & Hresc & Hlogs); auto.
    exists sys'. simpl in *. repeat split; auto.
    rewrite Hlogs. now rewrite <- app_assoc.
Qed.

Lemma left_step (ev : event) (sys sys' : system) :
  listener sys = Left -> happen s ev sys = Some sys' ->
  listener sys' = Left
  /\ (exists l, Chan.buf (msgc sys') = (Chan.buf (msgc sys) ++ l)%list)
  /\ List.length (requests sys') = List.length (requests sys).
Proof.
  intros Hl Hs. destruct ev; simpl in Hs.
  - destruct (onSocket r) as [[l [m|]] e]; try discriminate.
    destruct (Chan.send (msgc sys) m) eqn:E; try discriminate.
    inversion Hs; subst; clear Hs. simpl.
    apply ChanFacts.send_ok in E. destruct E as (_ & _ & ->). simpl.
    repeat split; eauto.
  - destruct (Chan.close (msgc sys)) eqn:E; try discriminate.
    inversion Hs; subst; clear Hs. simpl.
    apply ChanFacts.close_open in E. destruct E as (_ & ->). simpl.
    repeat split; auto. exists []. now rewrite app_nil_r.
  - unfold listen in Hs. rewrite Hl in Hs. discriminate.
  - destruct (nth_error (requests sys) i); try discriminate.
    destruct (fire s m (common sys) r) as [[sh r']|]; try discriminate.
    inversion Hs; subst; clear Hs. simpl.
    repeat split; auto; [exists []; now rewrite app_nil_r|].
    apply setNth_length.
  - destruct (Chan.recv (resc (common sys))); try discriminate.
    inversion Hs; subst; clear Hs. simpl.
    repeat split; auto. exists []. now rewrite app_nil_r.
Qed.

(** X13.  A listener that has left its loop never comes back: from then
    on no goroutine is started and no message is ever taken from [msgc],
    which can only fill up; once it is full the socket handler cannot
    complete its send. *)
Theorem listener_left_is_final (es : list event) (sys sys' : system) :
  listener sys = Left ->
  happenAll s es sys = Some sys' ->
  listener sys' = Left
  /\ (exists l, Chan.buf (msgc sys') = (Chan.buf (msgc sys) ++ l)%list)
  /\ List.length (requests sys') = List.length (requests sys)
  /\ (Chan.cap (msgc sys') <= List.length (Chan.buf (msgc sys')) ->
      forall r, happen s (Arrives r) sys' = None).
Proof.
  intros Hl Hr.
  assert (H : listener sys' = Left
              /\ (exists l, Chan.buf (msgc sys')
                            = (Chan.buf (msgc sys) ++ l)%list)
              /\ List.length (requests sys') = List.length (requests sys)).
  { revert sys Hl Hr. induction es as [|ev es IH]; simpl; intros sys Hl Hr.
    - inversion Hr; subst. repeat split; auto.
      exists []. now rewrite app_nil_r.
    - destruct (happen s ev sys) as [sys1|] eqn:E; [|discriminate].
      destruct (left_step _ _ Hl E) as (Hl1 & (l1 & Hb1) & Hn1).
      destruct (IH sys1 Hl1 Hr) as (Hl' & (l' & Hb') & Hn').
      repeat split; auto; [|congruence].
      exists (l1 ++ l')%list. rewrite Hb', Hb1. now rewrite app_assoc. }
  destruct H as (H1 & H2 & H3). repeat split; auto.
  intros Hfull r. simpl.
  destruct (onSocket r) as [[l [m|]] e]; auto.
  unfold Chan.send. destruct (Chan.closed (msgc sys')); auto.
  destruct (Nat.ltb_spec (List.length (Chan.buf (msgc sys')))
              (Chan.cap (msgc sys'))); auto. lia.
Qed.

Lemma fire_resc_grows (mv : move) (sh sh' : shared) (r r' : request) :
  fire s mv sh r = Some (sh', r') ->
  exists l, Chan.buf (resc sh') = (Chan.buf (resc sh) ++ l)%list.
Proof.
  intros H.
  assert (Hsame : forall x, sh' = x -> resc x = resc sh ->
                            exists l, Chan.buf (resc sh')
                                      = (Chan.buf (resc sh) ++ l)%list).
  { intros x -> Hx. exists []. now rewrite Hx, app_nil_r. }
  unfold fire in H.
  destruct mv, (pc r), (proc r); try discriminate;
    try (destruct (dispatch s (schemasVar sh) (msg r)) as [? []]);
    try (destruct (Chan.send (resc sh) o) eqn:E; try discriminate);
    try (destruct (Chan.send (resc sh) o0) eqn:E; try discriminate);
    try (destruct (processor s st); try discriminate);
    try (destruct (sinkSend r o); try discriminate);
    try (destruct (sinkSend r o0); try discriminate);
    try (destruct (ctxDone r); try discriminate);
    try (destruct (returnDeferred r); try discriminate);
    inversion H; subst; clear H;
    try (eapply Hsame; [reflexivity|reflexivity]);
    apply ChanFacts.send_ok in E; destruct E as (_ & _ & ->);
    simpl; eauto.
Qed.

Lemma passed_step (ev : event) (sys sys' : system) :
  happen s ev sys = Some sys' ->
  exists l, passed sys' = (passed sys ++ l)%list.
Proof.
  intros Hs. unfold passed. destruct ev; simpl in Hs.
  - destruct (onSocket r) as [[l [m|]] e]; try discriminate.
    destruct (Chan.send (msgc sys) m); try discriminate.
    inversion Hs; subst; clear Hs. simpl.
    exists []. now rewrite app_nil_r.
  - destruct (Chan.close (msgc sys)); try discriminate.
    inversion Hs; subst; clear Hs. simpl.
    exists []. now rewrite app_nil_r.
  - unfold listen in Hs. destruct (listener sys); try discriminate.
    destruct (Chan.recv (msgc sys)); try discriminate;
      inversion Hs; subst; clear Hs; simpl;
      try (exists []; now rewrite app_nil_r).
    unfold iteration, handleMessage.
    destruct (check []); simpl; [exists []; now rewrite app_nil_r|].
    destruct (getSchemas []); simpl;
      [destruct (UnpackSchemas s0 (schemasVar (common sys))) as [[?|] ?]|];
      simpl; exists []; now rewrite app_nil_r.
  - destruct (nth_error (requests sys) i); try discriminate.
    destruct (fire s m (common sys) r) as [[sh r']|] eqn:Ef;
      try discriminate.
    inversion Hs; subst; clear Hs. simpl.
    destruct (fire_resc_grows _ _ _ Ef) as (l & ->).
    exists l. now rewrite app_assoc.
  - destruct (Chan.recv (resc (common sys))) eqn:E; try discriminate.
    inversion Hs; subst; clear Hs. simpl.
    apply ChanFacts.recv_ok in E. destruct E as (-> & _ & _).
    exists []. rewrite app_nil_r. now rewrite <- app_assoc.
Qed.

(** X15.  Between the request goroutines and the reactor nothing is lost
    or reordered: the outputs the reactor side has taken, followed by
    those still in [resc], only ever grow at the end. *)
Theorem outputs_reach_reactor_in_order (es : list event)
        (sys sys' : system) :
  happenAll s es sys = Some sys' ->
  exists l, passed sys' = (passed sys ++ l)%list.
Proof.
  revert sys. induction es as [|ev es IH]; simpl; intros sys Hr.
  - inversion Hr; subst. exists []. now rewrite app_nil_r.
  - destruct (happen s ev sys) as [sys1|] eqn:E; [|discriminate].
    destruct (passed_step _ _ E) as (l1 & H1).
    destruct (IH sys1 Hr) as (l & H).
    exists (l1 ++ l)%list. rewrite H, H1. now rewrite app_assoc.
Qed.

(** X16.  A request reads the shared schemas when its goroutine starts
    to run, not when its message was handled: if the listener handles a
    second message carrying schemas before the goroutine of the first
    begins, the first request works with the schemas of the second. *)
Theorem request_sees_later_schemas (m1 m2 : requestMsg) (v : string)
        (e : error) (new : option Mapping) (sys sys3 : system) :
  check m1 = None -> check m2 = None ->
  getSchemas m2 = Some v ->
  UnpackSchemas v (schemasVar (common (handleMessage m1 sys))) = (e, new) ->
  happen s (Moves (List.length (requests sys)) Begin)
    (handleMessage m2 (handleMessage m1 sys)) = Some sys3 ->
  exists r,
    nth_error (requests sys3) (List.length (requests sys)) = Some r
    /\ msg r = m1
    /\ ((exists st, proc r = Executing st /\ schemas st = new)
        \/ (exists o, pc r = AtReject o /\ schemas (ostate o) = new)).
Proof.
  intros H1 H2 Hv Hu Hs.
  assert (Hreq : requests (handleMessage m2 (handleMessage m1 sys))
                 = ((requests sys ++ [spawn m1]) ++ [spawn m2])%list).
  { unfold handleMessage at 1. rewrite H2.
    unfold handleMessage. rewrite H1. reflexivity. }
  assert (Hsch : schemasVar (common (handleMessage m2 (handleMessage m1 sys)))
                 = new).
  { unfold handleMessage at 1. rewrite H2, Hv, Hu.
    destruct e; reflexivity. }
  simpl in Hs. rewrite Hreq in Hs.
  rewrite nth_error_app1 in Hs
    by (rewrite length_app; simpl; lia).
  rewrite nth_error_app2 in Hs by lia.
  rewrite Nat.sub_diag in Hs. simpl in Hs. rewrite Hsch in Hs.
  unfold dispatch in Hs. simpl in Hs.
  destruct (negb (hasCallback (getAction m1))).
  - inversion Hs; subst; clear Hs. simpl.
    eexists. split.
    + rewrite <- app_assoc. apply ServerFacts.setNth_same with (b := spawn m1).
      rewrite nth_error_app2 by lia. now rewrite Nat.sub_diag.
    + simpl. split; auto. right. eexists. split; reflexivity.
  - destruct (match getPayload m1 with
              | Some v0 => UnpackCommand v0 zeroCommand
              | None => None
              end);
      inversion Hs; subst; clear Hs; simpl; eexists; (split;
        [rewrite <- app_assoc;
         apply ServerFacts.setNth_same with (b := spawn m1);
         rewrite nth_error_app2 by lia; now rewrite Nat.sub_diag|]);
      simpl; (split; [reflexivity|]).
    + right. eexists. split; reflexivity.
    + left. eexists. split; reflexivity.
Qed.

End WithCollaborators.

Lemma closed_msgc_starts_a_goroutine_per_turn_witness :
  let sys := @startMessageListener Wire.lenient (Chan.mk [] 1000 true) in
  listener sys = Listening
  /\ Chan.buf (msgc sys) = [] /\ Chan.closed (msgc sys) = true
  /\ @check Wire.lenient [] = None
  /\ exists sys',
       happenAll Wire.srvLenient [Listens; Listens; Listens] sys = Some sys'
       /\ listener sys' = Listening
       /\ requests sys' = [spawn []; spawn []; spawn []]
       /\ Chan.buf (resc (common sys')) = [].
Proof.
  cbv zeta. do 4 (split; [reflexivity|]).
  destruct (@closed_msgc_starts_a_goroutine_per_turn Wire.lenient
              Wire.srvLenient 3
              (@startMessageListener Wire.lenient (Chan.mk [] 1000 true))
              eq_refl eq_refl eq_refl eq_refl)
    as (sys' & Hr & Hl & _ & Hq & Hresc & _).
  exists sys'. split; [exact Hr|]. split; [exact Hl|].
  split; [exact Hq|]. exact (f_equal (@Chan.buf _) Hresc).
Defined.

Lemma closed_msgc_makes_listener_spin_witness :
  let sys := @startMessageListener Wire.ext (Chan.mk [] 1000 true) in
  listener sys = Listening
  /\ Chan.buf (msgc sys) = [] /\ Chan.closed (msgc sys) = true
  /\ @check Wire.ext [] = Some "Invalid multipart request"
  /\ exists sys',
       happenAll Wire.srv [Listens; Listens; Listens] sys = Some sys'
       /\ listener sys' = Listening
       /\ logs (common sys')
          = repeat (logGlobal Critical "Invalid multipart request") 3.
Proof.
  cbv zeta. do 4 (split; [reflexivity|]).
  destruct (@closed_msgc_makes_listener_spin Wire.ext Wire.srv
              "Invalid multipart request" 3
              (@startMessageListener Wire.ext (Chan.mk [] 1000 true))
              eq_refl eq_refl eq_refl eq_refl)
    as (sys' & Hr & Hl & _ & _ & _ & Hlogs).
  exists sys'. split; [exact Hr|]. split; [exact Hl|exact Hlogs].
Defined.

Lemma listener_left_is_final_witness :
  let sys := {| msgc := Chan.make requestMsg 1000; listener := Left;
                common := Wire.fresh; requests := []; taken := [] |} in
  listener sys = Left
  /\ exists sys',
       happenAll Wire.srv
         [Arrives (Received Wire.goodRequest);
          Arrives (Received Wire.unknownAction)] sys = Some sys'
       /\ listener sys' = Left
       /\ Chan.buf (msgc sys') = [Wire.goodRequest; Wire.unknownAction]
       /\ List.length (requests sys') = 0.
Proof.
  cbv zeta. split; [reflexivity|].
  eexists. split; [cbv; reflexivity|].
  destruct (@listener_left_is_final Wire.ext Wire.srv
              [Arrives (Received Wire.goodRequest);
               Arrives (Received Wire.unknownAction)]
              {| msgc := Chan.make requestMsg 1000; listener := Left;
                 common := Wire.fresh; requests := []; taken := [] |}
              _ eq_refl eq_refl)
    as (Hl & _ & Hn & _).
  split; [exact Hl|]. split; [reflexivity|exact Hn].
Defined.

Lemma only_the_zero_message_is_dispatched_witness :
  exists sys,
    reachable Wire.srv sys
    /\ Chan.buf (msgc sys) = [Wire.unknownAction]
    /\ Forall (fun r => msg r = []) (requests sys).
Proof.
  assert (Hrun : exists sys,
             happenAll Wire.srv
               [Arrives (Received Wire.goodRequest); Listens;
                Arrives (Received Wire.unknownAction)]
               (startMessageListener (Chan.make requestMsg 1000)) = Some sys
             /\ Chan.buf (msgc sys) = [Wire.unknownAction]).
  { eexists. split; [cbv; reflexivity|reflexivity]. }
  destruct Hrun as (sys & Hr & Hb).
  assert (H : reachable Wire.srv sys) by (eexists; exact Hr).
  exists sys. split; [exact H|]. split; [exact Hb|].
  exact (@ServerFacts.only_the_zero_message_is_dispatched
           Wire.ext Wire.srv sys H).
Defined.

Lemma outputs_reach_reactor_in_order_witness :
  let sys := {| msgc := Chan.make requestMsg 1000; listener := Listening;
                common := Wire.fresh;
                requests := [spawn Wire.unknownAction]; taken := [] |} in
  exists sys',
    happenAll Wire.srv [Moves 0 Begin; Moves 0 EmitError; Takes] sys
    = Some sys'
    /\ (exists l, passed sys' = (passed sys ++ l)%list)
    /\ map (@err Wire.ext) (taken sys')
       = [Some (invalidAction Wire.srv "delete")].
Proof.
  cbv zeta. eexists. split; [cbv; reflexivity|]. split.
  - exact (@outputs_reach_reactor_in_order Wire.ext Wire.srv
             [Moves 0 Begin; Moves 0 EmitError; Takes]
             {| msgc := Chan.make requestMsg 1000; listener := Listening;
                common := Wire.fresh;
                requests := [spawn Wire.unknownAction]; taken := [] |}
             _ eq_refl).
  - reflexivity.
Defined.

Lemma request_sees_later_schemas_witness :
  let m1 := Wire.goodRequest in
  let m2 := ["peer-2"; ""; "req-6"; "read"; "schemas-v2"] in
  let sys := @startMessageListener Wire.ext (Chan.make requestMsg 1000) in
  @check Wire.ext m1 = None /\ @check Wire.ext m2 = None
  /\ @getSchemas Wire.ext m1 = None
  /\ @getSchemas Wire.ext m2 = Some "schemas-v2"
  /\ exists sys3 r st,
       happen Wire.srv (Moves 0 Begin)
         (handleMessage m2 (handleMessage m1 sys)) = Some sys3
       /\ nth_error (requests sys3) 0 = Some r
       /\ msg r = m1
       /\ proc r = Executing st
       /\ schemas st = Some "schemas-v2".
Proof.
  cbv zeta. do 4 (split; [reflexivity|]).
  eexists.
  destruct (@request_sees_later_schemas Wire.ext Wire.srv
              Wire.goodRequest ["peer-2"; ""; "req-6"; "read"; "schemas-v2"]
              "schemas-v2" None (Some "schemas-v2")
              (@startMessageListener Wire.ext (Chan.make requestMsg 1000))
              _ eq_refl eq_refl eq_refl eq_refl eq_refl)
    as (r & Hn & Hm & _).
  exists r. eexists.
  split; [reflexivity|]. split; [exact Hn|]. split; [exact Hm|].
  assert (Hr : Some r = nth_error _ 0) by (symmetry; exact Hn).
  cbv in Hr. injection Hr as ->. split; reflexivity.
Defined.

End ListenerFacts.

(** ** More on the request goroutine *)

Module RequestFacts.
Import Server.

Section WithCollaborators.

Context {ext : Collaborators}.
Variable s : server.

Lemma dispatch_launched_payload sch m l st :
  dispatch s sch m = (l, Launched st) ->
  forall v, getPayload m = Some v -> UnpackCommand v zeroCommand = None.
Proof.
  unfold dispatch. destruct (negb (hasCallback (getAction m)));
    [discriminate|].
  intros H v Hv. rewrite Hv in H. simpl in H.
  destruct (UnpackCommand v zeroCommand); [discriminate|reflexivity].
Qed.

(** X19.  In no run is the processor started for an action without a
    callback or for a payload that the codec refuses: whenever the
    processor of a request has been started, the action is registered,
    the payload, if any, was accepted, and the state it was given is the
    one built for the message, bound to the deadline. *)
Theorem processor_runs_only_for_registered_actions m ts sh sh' r' t' :
  run s ts sh m = Some (sh', r', t') ->
  proc r' <> NotStarted ->
  hasCallback (getAction m) = true
  /\ (forall v, getPayload m = Some v -> UnpackCommand v zeroCommand = None)
  /\ exists sch,
       dispatch s sch m
       = ([], Launched (withContext (newState s sch m)
                          (WithTimeout Background (timeout s)))).
Proof.
  intros Hr Hp. apply ServerFacts.situation_run in Hr.
  destruct Hr as [|sch l o Hd|sch l o Hd|sch st p d Hd _
                  |sch st o d Hd _|sch st o Hd _|sch st p Hd _];
    try (now elim Hp);
    destruct (ServerFacts.dispatch_launched _ _ _ Hd) as (_ & Hst & Hc);
    (split; [exact Hc|]);
    (split; [exact (dispatch_launched_payload _ _ Hd)|]);
    exists sch; now rewrite <- Hst.
Qed.

(** X20.  The sink of the processor stays open as long as the request
    goroutine has not returned, so a send on it can only wait, never
    panic.  A goroutine that has returned after starting the processor
    has closed the sink and cancelled the context; one that refused the
    request never made them. *)
Theorem sink_is_closed_exactly_on_return m ts sh sh' r' t' :
  run s ts sh m = Some (sh', r', t') ->
  (pc r' <> Returned -> forall o, sinkSend r' o = Chan.SendBlocks)
  /\ (pc r' = Returned ->
      (proc r' = NotStarted /\ outc r' = None /\ ctxDone r' = false)
      \/ (proc r' <> NotStarted /\ outc r' = closedSink
          /\ ctxDone r' = true
          /\ forall o, sinkSend r' o = Chan.SendPanics)).
Proof.
  intros Hr. apply ServerFacts.situation_run in Hr.
  destruct Hr as [|sch l o Hd|sch l o Hd|sch st p d Hd Hp
                  |sch st o d Hd Ho|sch st o Hd Ho|sch st p Hd Hp];
    simpl; split; try (intros H; now elim H); try discriminate;
    try (intros _ o'; reflexivity); intros _.
  - left. auto.
  - right. repeat split; auto. discriminate.
  - right. repeat split; auto. inversion Hp; discriminate.
Qed.

(** X21.  When the processor is at its send and the deadline has passed
    while the request goroutine is still at its select, both branches are
    open: the output can be received and forwarded, or the request can
    time out and the output be lost. *)
Theorem ready_reply_can_still_be_dropped m ts sh sh' r' t' o :
  run s ts sh m = Some (sh', r', t') ->
  pc r' = AtSelect -> proc r' = AtReply o -> ctxDone r' = true ->
  (exists r1, fire s Receive sh' r' = Some (sh', r1)
              /\ pc r1 = AtForward o)
  /\ (exists sh2 r2, fire s TimeOut sh' r' = Some (sh2, r2)
                     /\ pc r2 = Returned
                     /\ resc sh2 = resc sh').
Proof.
  intros Hr Hpc Hp Hc. apply ServerFacts.situation_run in Hr.
  destruct Hr as [|sch l o0 Hd|sch l o0 Hd|sch st p d Hd Hh
                  |sch st o0 d Hd Ho|sch st o0 Hd Ho|sch st p Hd Hh];
    try discriminate.
  simpl in Hp, Hc. subst p d. split.
  - eexists. split; reflexivity.
  - eexists. eexists. split; [reflexivity|]. split; reflexivity.
Qed.

(** X23.  The deadline is the configured number of milliseconds counted
    in nanoseconds on 64 bits: up to 9223372036854 ms it is that number
    times a million; above, the product wraps around and the deadline is
    negative. *)
Theorem timeout_wraps_on_64_bits :
  (0 <= GetTimeout (sinput s) <= 18446744073709)%Z ->
  ((GetTimeout (sinput s) <= 9223372036854)%Z ->
   timeout s = GetTimeout (sinput s) * 1000000)%Z
  /\ ((9223372036854 < GetTimeout (sinput s))%Z ->
      (timeout s = GetTimeout (sinput s) * 1000000 - 2 ^ 64)%Z
      /\ (timeout s < 0)%Z).
Proof.
  intros Hrange. unfold timeout, Fmt.wrap64.
  set (t := GetTimeout (sinput s)) in *.
  change (2 ^ 63)%Z with 9223372036854775808%Z.
  change (2 ^ 64)%Z with 18446744073709551616%Z.
  split; intros H.
  - rewrite Z.mod_small by lia. lia.
  - replace (t * 1000000 + 9223372036854775808)%Z
      with (t * 1000000 - 9223372036854775808
            + 1 * 18446744073709551616)%Z
      by lia.
    rewrite Z_mod_plus_full. rewrite Z.mod_small by lia. lia.
Qed.

End WithCollaborators.

Lemma reply_is_forwarded_witness :
  let ts := [Own Begin; Own HandlerReplies; Own Receive; Own Forward] in
  In (Own Forward) ts
  /\ exists x,
       run Wire.srv ts Wire.fresh Wire.goodRequest = Some x
       /\ pc (snd (fst x)) = Returned
       /\ map (@response Wire.ext) (outputs (snd x))
          = [["req-3"; ""; "done:create"]]
       /\ entries (snd x) = [].
Proof.
  cbv zeta.
  assert (Hin : In (@Own Wire.ext Forward)
                  [Own Begin; Own HandlerReplies; Own Receive; Own Forward])
    by (right; right; right; left; reflexivity).
  split; [exact Hin|].
  eexists. split; [cbv; reflexivity|].
  destruct (@ServerFacts.reply_is_forwarded Wire.ext Wire.srv
              Wire.goodRequest
              [Own Begin; Own HandlerReplies; Own Receive; Own Forward]
              Wire.fresh _ _ _ eq_refl Hin)
    as (sch & st & o & _ & _ & _ & He & Hpc & _).
  split; [exact Hpc|]. split; [reflexivity|exact He].
Defined.

Lemma one_output_unless_timed_out_witness :
  exists x,
    run Wire.srv Wire.timingOut Wire.fresh Wire.goodRequest = Some x
    /\ List.length (outputs (snd x)) <= 1
    /\ pc (snd (fst x)) = Returned
    /\ outputs (snd x) = [].
Proof.
  eexists. split; [cbv; reflexivity|].
  destruct (@ServerFacts.one_output_unless_timed_out Wire.ext Wire.srv
              Wire.goodRequest Wire.timingOut Wire.fresh _ _ _ eq_refl)
    as (Hlen & _).
  split; [exact Hlen|]. split; reflexivity.
Defined.

Lemma processor_runs_only_for_registered_actions_witness :
  exists x,
    run Wire.srv [Own Begin] Wire.fresh Wire.goodRequest = Some x
    /\ proc (snd (fst x)) <> NotStarted
    /\ @hasCallback Wire.ext "create" = true.
Proof.
  eexists. split; [cbv; reflexivity|].
  match goal with
  | |- ?P /\ _ =>
      assert (H : P) by discriminate; split; [exact H|]
  end.
  exact (proj1 (@processor_runs_only_for_registered_actions
                  Wire.ext Wire.srv Wire.goodRequest [Own Begin]
                  Wire.fresh _ _ _ eq_refl H)).
Defined.

Lemma sink_is_closed_exactly_on_return_witness :
  exists x,
    run Wire.srv Wire.timingOut Wire.fresh Wire.goodRequest = Some x
    /\ pc (snd (fst x)) = Returned
    /\ outc (snd (fst x)) = closedSink
    /\ ctxDone (snd (fst x)) = true.
Proof.
  eexists. split; [cbv; reflexivity|].
  destruct (@sink_is_closed_exactly_on_return Wire.ext Wire.srv
              Wire.goodRequest Wire.timingOut Wire.fresh _ _ _ eq_refl)
    as (_ & Hret).
  split; [reflexivity|].
  destruct (Hret eq_refl) as [(Hn & _)|(_ & Ho & Hc & _)].
  - discriminate Hn.
  - split; [exact Ho|exact Hc].
Defined.

Lemma ready_reply_can_still_be_dropped_witness :
  let ts := [Own Begin; Own HandlerReplies; Own DeadlinePasses] in
  exists x o,
    run Wire.srv ts Wire.fresh Wire.goodRequest = Some x
    /\ pc (snd (fst x)) = AtSelect
    /\ proc (snd (fst x)) = AtReply o
    /\ ctxDone (snd (fst x)) = true
    /\ (exists r1, fire Wire.srv Receive (fst (fst x)) (snd (fst x))
                   = Some (fst (fst x), r1))
    /\ (exists sh2 r2, fire Wire.srv TimeOut (fst (fst x)) (snd (fst x))
                       = Some (sh2, r2)).
Proof.
  cbv zeta. eexists. eexists. split; [cbv; reflexivity|].
  do 3 (split; [reflexivity|]).
  destruct (@ready_reply_can_still_be_dropped Wire.ext Wire.srv
              Wire.goodRequest
              [Own Begin; Own HandlerReplies; Own DeadlinePasses]
              Wire.fresh _ _ _ _ eq_refl eq_refl eq_refl eq_refl)
    as ((r1 & H1 & _) & (sh2 & r2 & H2 & _)).
  split; [exists r1; exact H1|exists sh2, r2; exact H2].
Defined.

Lemma timeout_wraps_on_64_bits_witness :
  (0 <= GetTimeout (sinput Wire.srv) <= 18446744073709)%Z
  /\ timeout Wire.srv = 30000000000%Z.
Proof.
  assert (H : (0 <= GetTimeout (sinput Wire.srv) <= 18446744073709)%Z)
    by (split; discriminate).
  split; [exact H|].
  destruct (@timeout_wraps_on_64_bits Wire.ext Wire.srv H) as (Hsmall & _).
  rewrite Hsmall; [reflexivity|discriminate].
Defined.

End RequestFacts.

(** ** More on pipeOutput *)

Module PipeMoreFacts.
Import Pipe.

(** X22.  [pipeOutput] never closes the channel it returns and never
    holds more in it than its capacity; its goroutine ends only when [c]
    has been closed and emptied; and what the reader has received is
    always a beginning of what was sent on [c]. *)
Theorem pipe_stays_open_and_bounded (A : Type) (ch : Chan.t A)
        (es : list (event A)) (st : state A) :
  happenAll es (pipeOutput ch) = Some st ->
  Chan.closed (pipe st) = false
  /\ List.length (Chan.buf (pipe st)) <= Chan.cap ch
  /\ (forwarder st = Exited A ->
      Chan.closed (c st) = true /\ Chan.buf (c st) = [])
  /\ exists rest, sentOn st = (received st ++ rest)%list.
Proof.
  intros Hr.
  destruct (PipeFacts.invariant_run es (PipeFacts.invariant_init ch) Hr)
    as [Hh Hc Ho Hroom He].
  repeat split; auto.
  - now apply He.
  - now apply He.
  - exists (Chan.buf (pipe st) ++ pending st)%list.
    rewrite Hh. unfold forwarded. now rewrite app_assoc.
Qed.

Lemma pipe_stays_open_and_bounded_witness :
  exists st,
    happenAll [Send 1; Close nat; Range nat; Push nat; Range nat]
      (pipeOutput (Chan.make nat 2)) = Some st
    /\ forwarder st = Exited nat
    /\ Chan.closed (pipe st) = false
    /\ Chan.buf (pipe st) = [1].
Proof.
  eexists. split; [cbv; reflexivity|].
  destruct (@pipe_stays_open_and_bounded nat (Chan.make nat 2)
              [Send 1; Close nat; Range nat; Push nat; Range nat]
              _ eq_refl)
    as (Ho & _).
  split; [reflexivity|]. split; [exact Ho|reflexivity].
Defined.

End PipeMoreFacts.

(** ** What becomes of a delivered message *)

Module DeliveryFacts.
Import Server.

Section WithCollaborators.

Context {ext : Collaborators}.
Variable s : server.

Lemma server_run_splits es1 : forall es2 sys sys',
  happenAll s (es1 ++ es2)%list sys = Some sys' ->
  exists mid, happenAll s es1 sys = Some mid
              /\ happenAll s es2 mid = Some sys'.
Proof.
  induction es1 as [|e es1 IH]; simpl; intros es2 sys sys' H.
  - eauto.
  - destruct (happen s e sys) as [sys1|]; [|discriminate]. eauto.
Qed.

Lemma handleMessage_msgc m sys : msgc (handleMessage m sys) = msgc sys.
Proof. unfold handleMessage. destruct (check m); reflexivity. Qed.

(** As long as [msgc] has not been closed the server is silent: the
    listener can only wait or leave. *)
Lemma open_step e sys sys' :
  happen s e sys = Some sys' ->
  (Chan.closed (msgc sys) = false -> silent sys) ->
  Chan.closed (msgc sys') = false -> silent sys'.
Proof.
  intros Hs Hq Hc. destruct e; simpl in Hs.
  - destruct r as [m|e|m e]; cbn [onSocket] in Hs; try discriminate;
      destruct (Chan.send (msgc sys) m) eqn:E; try discriminate;
      inversion Hs; subst; clear Hs;
      apply ChanFacts.send_ok in E; destruct E as (Ho & _ & _);
      destruct (Hq Ho) as (H1 & H2 & H3 & H4);
      unfold silent; cbn [requests common taken addLogs resc logs];
      repeat split; auto; apply Forall_app; split; auto.
  - destruct (Chan.close (msgc sys)) eqn:E; try discriminate.
    inversion Hs; subst; clear Hs. cbn [msgc] in Hc.
    apply ChanFacts.close_open in E. destruct E as (_ & ->). discriminate.
  - unfold listen in Hs. destruct (listener sys); try discriminate.
    destruct (Chan.recv (msgc sys)) eqn:E; try discriminate;
      inversion Hs; subst; clear Hs.
    + cbn [iteration msgc] in Hc.
      apply ChanFacts.recv_ok in E. destruct E as (_ & _ & Hcl).
      rewrite Hcl in Hc. exact (Hq Hc).
    + apply ChanFacts.recv_closed in E. destruct E as (_ & Hcl).
      unfold iteration in Hc. rewrite handleMessage_msgc in Hc. congruence.
  - destruct (nth_error (requests sys) i) as [r|] eqn:En; try discriminate.
    destruct (fire s m (common sys) r) as [[sh r']|]; try discriminate.
    inversion Hs; subst; clear Hs. cbn [msgc] in Hc.
    destruct (Hq Hc) as (H1 & _). rewrite H1 in En.
    destruct i; discriminate.
  - destruct (Chan.recv (resc (common sys))) eqn:E; try discriminate.
    inversion Hs; subst; clear Hs. cbn [msgc] in Hc.
    destruct (Hq Hc) as (_ & H2 & _).
    apply ChanFacts.recv_ok in E. destruct E as (E & _).
    rewrite H2 in E. discriminate.
Qed.

Lemma open_run es : forall sys sys',
  happenAll s es sys = Some sys' ->
  (Chan.closed (msgc sys) = false -> silent sys) ->
  Chan.closed (msgc sys') = false -> silent sys'.
Proof.
  induction es as [|e es IH]; simpl; intros sys sys' Hr Hq.
  - now inversion Hr; subst.
  - destruct (happen s e sys) as [sys1|] eqn:E; [|discriminate].
    apply (IH sys1); [exact Hr|]. eapply open_step; eauto.
Qed.

(** A message waiting in [msgc] is never handled: the first turn of the
    listener that finds it leaves the loop. *)
Lemma waiting_step m e sys sys' :
  happen s e sys = Some sys' ->
  (listener sys = Left \/ In m (Chan.buf (msgc sys))) /\ silent sys ->
  (listener sys' = Left \/ In m (Chan.buf (msgc sys'))) /\ silent sys'.
Proof.
  intros Hs (Hw & H1 & H2 & H3 & H4). destruct e; simpl in Hs.
  - destruct r as [m0|e|m0 e]; cbn [onSocket] in Hs; try discriminate;
      destruct (Chan.send (msgc sys) m0) eqn:E; try discriminate;
      inversion Hs; subst; clear Hs;
      apply ChanFacts.send_ok in E; destruct E as (_ & _ & ->);
      unfold silent;
      cbn [listener msgc requests common taken addLogs resc logs Chan.buf];
      (split; [destruct Hw; [left|right; apply in_or_app]; auto|]);
      repeat split; auto; apply Forall_app; split; auto.
  - destruct (Chan.close (msgc sys)) eqn:E; try discriminate.
    inversion Hs; subst; clear Hs.
    apply ChanFacts.close_open in E. destruct E as (_ & ->).
    unfold silent. cbn. auto.
  - unfold listen in Hs. destruct (listener sys) eqn:El; try discriminate.
    destruct Hw as [Hw|Hw]; [discriminate|].
    unfold Chan.recv in Hs.
    destruct (Chan.buf (msgc sys)) as [|m0 rest]; [contradiction|].
    inversion Hs; subst; clear Hs. unfold silent. cbn. auto.
  - rewrite H1 in Hs. destruct i; discriminate.
  - unfold Chan.recv in Hs. rewrite H2 in Hs.
    destruct (Chan.closed (resc (common sys))); discriminate.
Qed.

Lemma waiting_run m es : forall sys sys',
  happenAll s es sys = Some sys' ->
  (listener sys = Left \/ In m (Chan.buf (msgc sys))) /\ silent sys ->
  (listener sys' = Left \/ In m (Chan.buf (msgc sys'))) /\ silent sys'.
Proof.
  induction es as [|e es IH]; simpl; intros sys sys' Hr Hq.
  - now inversion Hr; subst.
  - destruct (happen s e sys) as [sys1|] eqn:E; [|discriminate].
    apply (IH sys1); [exact Hr|]. eapply waiting_step; eauto.
Qed.

(** Whatever the server does after a message was delivered, the message
    is never handled and the server stays silent. *)
Lemma delivered_never_handled m sys :
  delivered s m sys ->
  (listener sys = Left \/ In m (Chan.buf (msgc sys)))
  /\ silent sys /\ ~ pendingFor m sys.
Proof.
  intros (before & after & Hr).
  apply server_run_splits in Hr. destruct Hr as (mid & Hb & Ha).
  simpl in Ha.
  destruct (Chan.send (msgc mid) m) eqn:E; try discriminate.
  apply ChanFacts.send_ok in E. destruct E as (Ho & _ & ->).
  assert (Hmid : silent mid).
  { apply (open_run _ Hb); [|exact Ho].
    intros _. unfold silent. cbn. auto. }
  apply (waiting_run m) in Ha.
  - destruct Ha as (Hw & Hq). split; [exact Hw|]. split; [exact Hq|].
    destruct Hq as (H1 & H2 & _).
    intros [(r & Hin & _)|(o & Hin & _)].
    + now rewrite H1 in Hin.
    + now rewrite H2 in Hin.
  - destruct Hmid as (H1 & H2 & H3 & H4). unfold silent.
    cbn [listener msgc requests common taken addLogs resc logs Chan.buf].
    split; [right; apply in_or_app; right; left; reflexivity|].
    rewrite app_nil_r. auto.
Qed.

Lemma timeout_in_range :
  (0 <= GetTimeout (sinput s) <= 9223372036854)%Z ->
  timeout s = (GetTimeout (sinput s) * 1000000)%Z.
Proof.
  intros H. unfold timeout, Fmt.wrap64.
  change (2 ^ 63)%Z with 9223372036854775808%Z.
  change (2 ^ 64)%Z with 18446744073709551616%Z.
  rewrite Z.mod_small by lia. lia.
Qed.

(** C3, on the code.  Lines 169-174 answer a message whose action has no
    callback with the error output "Invalid action for component ...",
    in the request goroutine.  A message that the socket handler has
    delivered never gets there: whatever the server does afterwards, the
    listener has left its loop or the message still waits in [msgc], no
    request goroutine has been started, no output has been sent on [resc]
    or taken by the reactor, and nothing stands for the message.  The
    peer gets no error reply. *)
Theorem unknown_action_gets_no_reply m sys :
  hasCallback (getAction m) = false ->
  delivered s m sys ->
  (forall sch,
     dispatch s sch m
     = ([], Rejected (failed (newState s sch m)
                        (invalidAction s (getAction m)))))
  /\ (listener sys = Left \/ In m (Chan.buf (msgc sys)))
  /\ requests sys = []
  /\ Chan.buf (resc (common sys)) = []
  /\ taken sys = []
  /\ ~ pendingFor m sys.
Proof.
  intros Hc Hd.
  destruct (delivered_never_handled Hd) as (Hw & (H1 & H2 & H3 & _) & Hp).
  split; [|repeat split; auto].
  intros sch. now apply ServerFacts.dispatch_unknown.
Qed.

(** C4, on the code.  Lines 176-184 log a payload that the codec refuses
    and answer it with the error output "Invalid payload for component
    ...", in the request goroutine.  A message that the socket handler
    has delivered never gets there: whatever the server does afterwards,
    the listener has left its loop or the message still waits in [msgc],
    no request goroutine has been started, the failure has not been
    logged, and no output has been sent on [resc] or taken by the
    reactor.  No error output is emitted. *)
Theorem undecodable_payload_gets_no_reply m v e sys :
  hasCallback (getAction m) = true ->
  getPayload m = Some v ->
  UnpackCommand v zeroCommand = Some e ->
  delivered s m sys ->
  (forall sch,
     dispatch s sch m
     = ([logGlobal Critical ("Failed to read payload: " ++ e)],
        Rejected (failed (newState s sch m)
                    (invalidPayload s (getAction m)))))
  /\ (listener sys = Left \/ In m (Chan.buf (msgc sys)))
  /\ requests sys = []
  /\ Chan.buf (resc (common sys)) = []
  /\ taken sys = []
  /\ Forall (fun l => lvl l <> Critical) (logs (common sys))
  /\ ~ pendingFor m sys.
Proof.
  intros Hc Hv He Hd.
  destruct (delivered_never_handled Hd) as (Hw & (H1 & H2 & H3 & H4) & Hp).
  split; [|repeat split; auto].
  - intros sch. now apply ServerFacts.dispatch_undecodable with (v := v).
  - eapply Forall_impl; [|exact H4]. intros l Hl. rewrite Hl. discriminate.
Qed.

(** C5, on the code.  For a delivered request no handler is ever started
    and no deadline is ever watched: whatever the server does afterwards,
    no request goroutine has been started, no output exists, and the log
    holds no warning.  The warning of lines 202-204, where it is logged,
    prints the int64 behind the duration before "ms": for a timeout in
    the range of the type, a million times the number of milliseconds. *)
Theorem delivered_request_never_times_out m sys :
  delivered s m sys ->
  (0 < GetTimeout (sinput s) <= 9223372036854)%Z ->
  requests sys = []
  /\ Chan.buf (resc (common sys)) = []
  /\ taken sys = []
  /\ Forall (fun l => lvl l <> Warning) (logs (common sys))
  /\ text (timedOut s (requestLogger m))
     = "Execution timed out after "
         ++ Fmt.dec (GetTimeout (sinput s) * 1000000) ++ "ms. PID: "
         ++ Fmt.dec Getpid
  /\ (GetTimeout (sinput s) < timeout s)%Z.
Proof.
  intros Hd Ht.
  destruct (delivered_never_handled Hd) as (_ & (H1 & H2 & H3 & H4) & _).
  assert (Hns : timeout s = (GetTimeout (sinput s) * 1000000)%Z)
    by (apply timeout_in_range; lia).
  repeat split; auto.
  - eapply Forall_impl; [|exact H4]. intros l Hl. rewrite Hl. discriminate.
  - unfold timedOut, logRequest. cbn [text]. now rewrite Hns.
  - rewrite Hns. lia.
Qed.

(** C6, on the code.  Lines 135-140 log a message that [check] refuses
    once, at the critical level, and go on with the loop.  A message that
    the socket handler has delivered never gets there: whatever the
    server does afterwards, the listener has left its loop or the message
    still waits in [msgc], the log holds no critical entry, no request
    goroutine has been started and no output exists.  Nothing is logged
    for the message and nothing is sent to the peer. *)
Theorem refused_message_is_never_checked m e sys :
  check m = Some e ->
  delivered s m sys ->
  (forall sys0,
     appended (common sys0) (common (handleMessage m sys0))
     = [logGlobal Critical e]
     /\ requests (handleMessage m sys0) = requests sys0)
  /\ (listener sys = Left \/ In m (Chan.buf (msgc sys)))
  /\ Forall (fun l => lvl l <> Critical) (logs (common sys))
  /\ requests sys = []
  /\ Chan.buf (resc (common sys)) = []
  /\ taken sys = []
  /\ ~ pendingFor m sys.
Proof.
  intros Hc Hd.
  destruct (delivered_never_handled Hd) as (Hw & (H1 & H2 & H3 & H4) & Hp).
  split; [|repeat split; auto].
  - intros sys0.
    destruct (@ServerFacts.refused_message_is_logged_and_dropped
                ext m e sys0 Hc) as (_ & Hl & _ & Hr).
    split; [exact Hl|exact Hr].
  - eapply Forall_impl; [|exact H4]. intros l Hl. rewrite Hl. discriminate.
Qed.

End WithCollaborators.

(** *** The deliveries at work on the sample server *)

Lemma unknown_action_gets_no_reply_witness :
  @hasCallback Wire.ext (@getAction Wire.ext Wire.unknownAction) = false
  /\ exists sys,
       happenAll Wire.srv
         [Arrives (Received Wire.unknownAction); Listens; CloseMsgc]
         (startMessageListener (Chan.make requestMsg 1000)) = Some sys
       /\ listener sys = Left
       /\ requests sys = []
       /\ Chan.buf (resc (common sys)) = []
       /\ taken sys = [].
Proof.
  split; [reflexivity|].
  eexists. split; [cbv; reflexivity|].
  match goal with
  | |- listener ?x = _ /\ _ =>
      assert (Hd : delivered Wire.srv Wire.unknownAction x)
        by (exists [], [Listens; CloseMsgc]; reflexivity)
  end.
  destruct (@unknown_action_gets_no_reply Wire.ext Wire.srv
              Wire.unknownAction _ eq_refl Hd)
    as (_ & _ & Hq & Hb & Ht & _).
  split; [reflexivity|]. split; [exact Hq|]. split; [exact Hb|exact Ht].
Defined.

Lemma undecodable_payload_gets_no_reply_witness :
  @hasCallback Wire.ext (@getAction Wire.ext Wire.badPayload) = true
  /\ @getPayload Wire.ext Wire.badPayload = Some "garbage"
  /\ @UnpackCommand Wire.ext "garbage" (@zeroCommand Wire.ext)
     = Some "unexpected end of stream"
  /\ exists sys,
       happenAll Wire.srv
         [Arrives (Received Wire.badPayload); Listens; CloseMsgc]
         (startMessageListener (Chan.make requestMsg 1000)) = Some sys
       /\ listener sys = Left
       /\ requests sys = []
       /\ Chan.buf (resc (common sys)) = []
       /\ logs (common sys) = [].
Proof.
  do 3 (split; [reflexivity|]).
  eexists. split; [cbv; reflexivity|].
  match goal with
  | |- listener ?x = _ /\ _ =>
      assert (Hd : delivered Wire.srv Wire.badPayload x)
        by (exists [], [Listens; CloseMsgc]; reflexivity)
  end.
  destruct (@undecodable_payload_gets_no_reply Wire.ext Wire.srv
              Wire.badPayload "garbage" "unexpected end of stream" _
              eq_refl eq_refl eq_refl Hd)
    as (_ & _ & Hq & Hb & _).
  split; [reflexivity|]. split; [exact Hq|]. split; [exact Hb|reflexivity].
Defined.

Lemma delivered_request_never_times_out_witness :
  (0 < GetTimeout (sinput Wire.srv) <= 9223372036854)%Z
  /\ exists sys,
       happenAll Wire.srv
         [Arrives (Received Wire.goodRequest); Listens]
         (startMessageListener (Chan.make requestMsg 1000)) = Some sys
       /\ requests sys = []
       /\ logs (common sys) = []
       /\ text (timedOut Wire.srv (@requestLogger Wire.ext Wire.goodRequest))
          = "Execution timed out after 30000000000ms. PID: 4242".
Proof.
  assert (Ht : (0 < GetTimeout (sinput Wire.srv) <= 9223372036854)%Z)
    by (split; [reflexivity|discriminate]).
  split; [exact Ht|].
  eexists. split; [cbv; reflexivity|].
  match goal with
  | |- requests ?x = _ /\ _ =>
      assert (Hd : delivered Wire.srv Wire.goodRequest x)
        by (exists [], [Listens]; reflexivity)
  end.
  destruct (@delivered_request_never_times_out Wire.ext Wire.srv
              Wire.goodRequest _ Hd Ht)
    as (Hq & _ & _ & _ & Htext & _).
  split; [exact Hq|]. split; [reflexivity|exact Htext].
Defined.

Lemma refused_message_is_never_checked_witness :
  @check Wire.ext Wire.noAction = Some "Invalid multipart request"
  /\ Wire.hasRequestID Wire.noAction = true
  /\ exists sys,
       happenAll Wire.srv
         [Arrives (Received Wire.noAction); Listens]
         (startMessageListener (Chan.make requestMsg 1000)) = Some sys
       /\ listener sys = Left
       /\ logs (common sys) = []
       /\ requests sys = []
       /\ taken sys = [].
Proof.
  do 2 (split; [reflexivity|]).
  eexists. split; [cbv; reflexivity|].
  match goal with
  | |- listener ?x = _ /\ _ =>
      assert (Hd : delivered Wire.srv Wire.noAction x)
        by (exists [], [Listens]; reflexivity)
  end.
  destruct (@refused_message_is_never_checked Wire.ext Wire.srv
              Wire.noAction "Invalid multipart request" _ eq_refl Hd)
    as (_ & _ & _ & Hq & _ & Ht & _).
  split; [reflexivity|]. split; [reflexivity|].
  split; [exact Hq|exact Ht].
Defined.

End DeliveryFacts.
